(** * ProtoMesh lock engine: a shallow embedding of [LockManager] and its
      HTTP facade, with the Redis commands the Lua scripts call.

    Source files embedded here:
    - [src/protomesh/core/lock_manager.py]  (class [LockManager]: the Lua
      scripts [acquire_script], [release_script], [cancel_script],
      [extend_script], [cleanup_script] and their Python wrappers);
    - [src/protomesh/api/main.py]           (request models and endpoints);
    - [src/protomesh/core/policy_engine.py] (class [PolicyEngine]);
    - [src/protomesh/sdk/client.py]         (class [ProtoMeshClient]).

    The Redis keyspace is one finite map from key to a typed value with an
    optional expiry deadline; every [redis.call] is a function on that map.
    A Lua script is a state-and-error computation: a failing [redis.call]
    aborts the script and keeps the writes made so far, as Redis does. *)

From Stdlib Require Import ZArith String Ascii List Lia DecimalString DecimalZ.
From stdpp Require Import base option list gmap strings.

Open Scope string_scope.
Open Scope Z_scope.

(** ** Strings: decimal and hexadecimal printing, literal [gsub] *)

Module Str.

(** Python [str(n)] and Lua [tostring(n)] on an integer. *)
Definition of_Z (z : Z) : string := NilZero.string_of_int (Z.to_int z).

(** Redis parses the decimal text of an integer value ([INCR]). *)
Definition to_Z (s : string) : option Z :=
  match NilZero.int_of_string s with
  | Some d => Some (Z.of_int d)
  | None => None
  end.

Fixpoint zeros (n : nat) : string :=
  match n with
  | O => EmptyString
  | S n' => String "0" (zeros n')
  end.

(** ["%0<w>d" % n] for a non-negative [n]. *)
Definition pad (w : nat) (n : Z) : string :=
  let s := of_Z n in zeros (w - String.length s) ++ s.

Definition hex_digit (d : Z) : ascii :=
  match d with
  | 0 => "0" | 1 => "1" | 2 => "2" | 3 => "3" | 4 => "4"
  | 5 => "5" | 6 => "6" | 7 => "7" | 8 => "8" | 9 => "9"
  | 10 => "a" | 11 => "b" | 12 => "c" | 13 => "d" | 14 => "e"
  | _ => "f"
  end%char.

(** The [n] lowest hexadecimal digits of [v], most significant first. *)
Fixpoint hex (n : nat) (v : Z) : string :=
  match n with
  | O => EmptyString
  | S n' => hex n' (Z.shiftr v 4) ++ String (hex_digit (Z.land v 15)) EmptyString
  end.

(** Lua [string.gsub(s, pat, rep)] for a pattern without magic characters:
    every occurrence of [pat], scanned left to right without overlap, is
    replaced by [rep].  [skip] counts the characters of a matched occurrence
    that are still to be dropped. *)
Fixpoint gsub_go (pat rep : string) (skip : nat) (s : string) : string :=
  match s with
  | EmptyString => EmptyString
  | String c s' =>
      match skip with
      | S n => gsub_go pat rep n s'
      | O =>
          if String.prefix pat s
          then rep ++ gsub_go pat rep (String.length pat - 1) s'
          else String c (gsub_go pat rep O s')
      end
  end.

Definition gsub (s pat rep : string) : string := gsub_go pat rep O s.

(** The text [pat] occurs somewhere in [s]. *)
Fixpoint occurs (pat s : string) : bool :=
  String.prefix pat s ||
  match s with
  | EmptyString => false
  | String _ s' => occurs pat s'
  end.

(** Characters of a string, for statements about its shape. *)
Fixpoint chars (s : string) : list ascii :=
  match s with
  | EmptyString => []
  | String c s' => c :: chars s'
  end.

Definition is_digit (c : ascii) : bool :=
  let n := N_of_ascii c in (48 <=? n)%N && (n <=? 57)%N.


End Str.

(** ** The atomic store: a Redis keyspace

    Modelling choices.  The clock counts milliseconds and stands still while
    a script runs, as Redis freezes it for scripts; a key with a deadline is
    alive up to and including the deadline, and a store never contains a key
    past its deadline ([tick] removes them).  A score is a double, as Lua's
    [tonumber] and the store keep it: every score of this program is the
    double nearest to an integer, so it is an integer itself or infinite, and
    is kept as that integer ([double_of_Z]; the infinities as [2^1024] and
    its opposite, which lie beyond every finite double, since only the order
    of scores is ever observed).  Members and keys are byte strings.  One
    keyspace holds all kinds of values, so a command on a key of another kind
    fails with WRONGTYPE as in Redis. *)

Module Redis.

(** A value is a string, a hash or a sorted set (member to score). *)
Inductive rvalue : Type :=
  | RStr (v : string)
  | RHash (h : gmap string string)
  | RZset (z : gmap string Z).

(** A key's entry: its value and its expiry deadline in milliseconds of the
    store's clock ([None]: the key never expires). *)
Record entry : Type := Entry { e_val : rvalue; e_exp : option Z }.

Record store : Type := Store {
  kv : gmap string entry;
  now_ms : Z;                          (* the store's clock *)
  published : list (string * string)   (* PUBLISH log: channel, payload *)
}.

Definition empty_store : store := Store ∅ 0 [].

Definition with_kv (f : gmap string entry → gmap string entry) (s : store) : store :=
  Store (f (kv s)) (now_ms s) (published s).

(** What a failing [redis.call] or a Lua runtime error reports; the Python
    wrapper sees it as a raised exception, and can raise its own. *)
Inductive script_error : Type :=
  | WrongType            (* WRONGTYPE operation against a key of another kind *)
  | InvalidExpire        (* invalid expire time in 'set' command *)
  | NotAnInteger         (* value is not an integer or out of range *)
  | LuaError (msg : string)
  | PyIndexError.        (* result[i] past the end of the reply *)

Inductive outcome (A : Type) : Type :=
  | Ok (a : A) (s : store)
  | Fail (e : script_error) (s : store).
Arguments Ok {A} a s.
Arguments Fail {A} e s.

Definition script (A : Type) : Type := store → outcome A.

Definition ret {A} (a : A) : script A := λ s, Ok a s.
Definition throw {A} (e : script_error) : script A := λ s, Fail e s.
Definition bind {A B} (c : script A) (k : A → script B) : script B :=
  λ s, match c s with
       | Ok a s' => k a s'
       | Fail e s' => Fail e s'
       end.

Definition final {A} (o : outcome A) : store :=
  match o with Ok _ s => s | Fail _ s => s end.

(** Lua [a .. b] raises an error when an operand is [nil]. *)
Definition lua_str (what : string) (o : option string) : script string :=
  match o with
  | Some v => ret v
  | None => throw (LuaError ("attempt to concatenate a nil value: " ++ what))
  end.

(** *** Sorted sets: order by score, then by member bytes *)

(** Where the doubles end: the integer that stands for an infinite score. *)
Definition double_inf : Z := 2 ^ 1024.

(** The double nearest to the integer [z] (53 bits of mantissa, round to
    nearest, ties to even, overflow to infinity): what [tonumber] makes of
    the decimal text of [z], and what the store parses a score to. *)
Definition double_of_Z (z : Z) : Z :=
  let a := Z.abs z in
  if (a <? 2 ^ 53)%Z then z
  else
    let e := Z.log2 a - 52 in
    let q := Z.shiftr a e in
    let r := Z.land a (Z.ones e) in
    let half := Z.shiftl 1 (e - 1) in
    let q' := if (r <? half)%Z || ((r =? half)%Z && Z.even q) then q else q + 1 in
    Z.sgn z * Z.min (Z.shiftl q' e) double_inf.

Definition zle (a b : string * Z) : bool :=
  (a.2 <? b.2)%Z || ((a.2 =? b.2)%Z && String.leb a.1 b.1).

Definition zlt (a b : string * Z) : bool :=
  (a.2 <? b.2)%Z || ((a.2 =? b.2)%Z && String.ltb a.1 b.1).

Fixpoint zmin_list (l : list (string * Z)) : option (string * Z) :=
  match l with
  | [] => None
  | x :: l' =>
      match zmin_list l' with
      | None => Some x
      | Some y => if zle x y then Some x else Some y
      end
  end.

Definition zmin (z : gmap string Z) : option (string * Z) :=
  zmin_list (map_to_list z).

(** Zero-based rank: how many members sort strictly before [m]. *)
Definition zrank (z : gmap string Z) (m : string) : option Z :=
  match z !! m with
  | Some sc =>
      Some (Z.of_nat (length (filter (λ x, zlt x (m, sc) = true) (map_to_list z))))
  | None => None
  end.

(** A sorted set that becomes empty is removed from the keyspace. *)
Definition put_zset (k : string) (z : gmap string Z) (exp : option Z)
    (m : gmap string entry) : gmap string entry :=
  if decide (z = ∅) then delete k m else <[k := Entry (RZset z) exp]> m.

(** *** Commands *)

Inductive set_cond : Type := SetAlways | SetNX | SetXX.

Definition GET (k : string) : script (option string) := λ s,
  match kv s !! k with
  | None => Ok None s
  | Some (Entry (RStr v) _) => Ok (Some v) s
  | Some _ => Fail WrongType s
  end.

Definition DEL (k : string) : script Z := λ s,
  Ok (match kv s !! k with Some _ => 1 | None => 0 end) (with_kv (delete k) s).

(** [SET k v [NX|XX] EX ex]: [true] when the write happened. *)
Definition SET (k v : string) (c : set_cond) (ex : Z) : script bool := λ s,
  if (ex <=? 0)%Z then Fail InvalidExpire s
  else
    let write := Ok true (with_kv (insert k (Entry (RStr v) (Some (now_ms s + 1000 * ex)))) s) in
    match c, kv s !! k with
    | SetNX, Some _ => Ok false s
    | SetXX, None => Ok false s
    | _, _ => write
    end.

(** [EXPIRE k t]: a deadline that is not in the future deletes the key. *)
Definition EXPIRE (k : string) (t : Z) : script Z := λ s,
  match kv s !! k with
  | None => Ok 0 s
  | Some e =>
      if (t <=? 0)%Z then Ok 1 (with_kv (delete k) s)
      else Ok 1 (with_kv (insert k (Entry (e_val e) (Some (now_ms s + 1000 * t)))) s)
  end.

Definition HGETALL (k : string) : script (gmap string string) := λ s,
  match kv s !! k with
  | None => Ok ∅ s
  | Some (Entry (RHash h) _) => Ok h s
  | Some _ => Fail WrongType s
  end.

Definition hset_fields (fs : list (string * string)) (h : gmap string string)
    : gmap string string :=
  foldl (λ acc fv, <[fv.1 := fv.2]> acc) h fs.

Definition HSET (k : string) (fs : list (string * string)) : script unit := λ s,
  match kv s !! k with
  | None => Ok tt (with_kv (insert k (Entry (RHash (hset_fields fs ∅)) None)) s)
  | Some (Entry (RHash h) exp) =>
      Ok tt (with_kv (insert k (Entry (RHash (hset_fields fs h)) exp)) s)
  | Some _ => Fail WrongType s
  end.

Definition zset_at (k : string) : script (gmap string Z * option Z) := λ s,
  match kv s !! k with
  | None => Ok (∅, None) s
  | Some (Entry (RZset z) exp) => Ok (z, exp) s
  | Some _ => Fail WrongType s
  end.

Definition ZSCORE (k m : string) : script (option Z) :=
  bind (zset_at k) (λ ze, ret (ze.1 !! m)).

Definition ZRANK (k m : string) : script (option Z) :=
  bind (zset_at k) (λ ze, ret (zrank ze.1 m)).

(** [ZADD k score m], the score given as the decimal text of an integer (or
    as the number [tonumber] made of that text): it is stored as a double. *)
Definition ZADD (k : string) (score : Z) (m : string) : script unit :=
  bind (zset_at k) (λ ze s,
    Ok tt (with_kv (insert k (Entry (RZset (<[m := double_of_Z score]> ze.1)) ze.2)) s)).

(** [ZPOPMIN k 1]: the popped member with its score, if any. *)
Definition ZPOPMIN (k : string) : script (option (string * Z)) :=
  bind (zset_at k) (λ ze s,
    match zmin ze.1 with
    | None => Ok None s
    | Some x => Ok (Some x) (with_kv (put_zset k (delete x.1 ze.1) ze.2) s)
    end).

Definition ZREM (k m : string) : script Z :=
  bind (zset_at k) (λ ze s,
    match ze.1 !! m with
    | None => Ok 0 s
    | Some _ => Ok 1 (with_kv (put_zset k (delete m ze.1) ze.2) s)
    end).

Definition INCR (k : string) : script Z := λ s,
  match kv s !! k with
  | None => Ok 1 (with_kv (insert k (Entry (RStr (Str.of_Z 1)) None)) s)
  | Some (Entry (RStr v) exp) =>
      match Str.to_Z v with
      | Some n =>
          if (9223372036854775807 <=? n)%Z then Fail NotAnInteger s
          else Ok (n + 1) (with_kv (insert k (Entry (RStr (Str.of_Z (n + 1))) exp)) s)
      | None => Fail NotAnInteger s
      end
  | Some _ => Fail WrongType s
  end.

Definition PUBLISH (channel payload : string) : script unit := λ s,
  Ok tt (Store (kv s) (now_ms s) (published s ++ [(channel, payload)])).

(** [TIME][1]: the store's clock in unix seconds, as text. *)
Definition TIME_seconds : script string := λ s,
  Ok (Str.of_Z (now_ms s / 1000)) s.

(** [SCAN 0 MATCH <prefix>* ] iterated to completion: every key with the
    prefix. *)
Definition keys_with_prefix (p : string) (s : store) : list string :=
  filter (λ k, String.prefix p k = true) (map_to_list (kv s)).*1.

(** *** Time *)

Definition alive (t : Z) (e : entry) : bool :=
  match e_exp e with
  | None => true
  | Some d => (t <=? d)%Z
  end.

(** The clock advances by [dt] milliseconds; keys past their deadline are
    gone. *)
Definition tick (dt : Z) (s : store) : store :=
  let t := now_ms s + Z.max 0 dt in
  Store (filter (λ ke, alive t ke.2 = true) (kv s)) t (published s).

End Redis.

(** ** Values minted on the engine's host *)

Module Host.

(** [uuid.uuid4()]: 16 random bytes with the RFC 4122 variant and the
    version number 4 patched in ([uuid.UUID.__init__]). *)
Definition uuid4 (random : Z) : Z :=
  let i := Z.land random (Z.ones 128) in
  let i := Z.land i (Z.lnot (Z.shiftl 49152 48)) in      (* int &= ~(0xc000 << 48) *)
  let i := Z.lor i (Z.shiftl 32768 48) in                 (* int |= 0x8000 << 48 *)
  let i := Z.land i (Z.lnot (Z.shiftl 61440 64)) in      (* int &= ~(0xf000 << 64) *)
  Z.lor i (Z.shiftl 4 76).                                (* int |= 4 << 76 *)

(** [str(u)]: the 32 hexadecimal digits grouped 8-4-4-4-12. *)
Definition uuid_str (u : Z) : string :=
  Str.hex 8 (Z.shiftr u 96) ++ "-" ++
  Str.hex 4 (Z.shiftr u 80) ++ "-" ++
  Str.hex 4 (Z.shiftr u 64) ++ "-" ++
  Str.hex 4 (Z.shiftr u 48) ++ "-" ++
  Str.hex 12 u.



(** A naive [datetime], as [datetime.utcnow()] returns it. *)
Record datetime : Type := DateTime {
  year : Z; month : Z; day : Z;
  hour : Z; minute : Z; second : Z; microsecond : Z
}.

(** [datetime.isoformat()]: [YYYY-MM-DDTHH:MM:SS], followed by [.ffffff]
    when the microsecond is not zero. *)
Definition isoformat (d : datetime) : string :=
  Str.pad 4 (year d) ++ "-" ++ Str.pad 2 (month d) ++ "-" ++ Str.pad 2 (day d) ++
  "T" ++
  Str.pad 2 (hour d) ++ ":" ++ Str.pad 2 (minute d) ++ ":" ++ Str.pad 2 (second d) ++
  (if microsecond d =? 0 then "" else "." ++ Str.pad 6 (microsecond d))%Z.

End Host.

(** ** The lock engine: [class LockManager] *)

Module LockManager.
Import Redis.

Notation "'let!' x ':=' c 'in' k" := (bind c (λ x, k))
  (at level 10, x name, c at level 100, k at level 200, only parsing).
Notation "'run!' c 'in' k" := (bind c (λ _, k))
  (at level 10, c at level 100, k at level 200, only parsing).

(** *** Key layout (the f-strings of the wrappers and the Lua [..]) *)

Definition lock_key (T R : string) : string := "lock:" ++ T ++ ":" ++ R.
Definition queue_key (T R : string) : string := "queue:" ++ T ++ ":" ++ R.
Definition agent_lock_key (T R A : string) : string :=
  "agent_lock:" ++ T ++ ":" ++ R ++ ":" ++ A.
Definition cancel_key (T R A : string) : string :=
  "cancel:" ++ T ++ ":" ++ R ++ ":" ++ A.
Definition meta_key (L : string) : string := "lock_meta:" ++ L.
Definition counter_key : string := "lock_id_counter".
Definition grant_channel (lk : string) : string := "lock_granted:" ++ lk.

(** The six fields of a metadata hash, in the order of the [HSET]. *)
Definition meta_fields (lk A L acquired_at T R : string) : list (string * string) :=
  [("lock_key", lk); ("agent_id", A); ("lock_id", L);
   ("acquired_at", acquired_at); ("resource_type", T); ("resource_id", R)].

(** *** acquire *)

(** The Lua reply [{code, value}] or [{code, value, extra}]. *)
Record acq_reply : Type := AcqReply {
  acq_code : Z; acq_value : option Z; acq_extra : option string
}.

(** The part of [acquire_script] from [-- Try to acquire lock atomically] on:
    a conditional create of the lock key, and the queue when it fails. *)
Definition acquire_or_queue (k_lock k_meta k_queue k_agent : string)
    (A : string) (ttl : Z) (L acquired_at T R : string) (score : Z)
    : script acq_reply :=
  let! acquired := SET k_lock A SetNX ttl in
  if (acquired : bool) then
    run! HSET k_meta (meta_fields k_lock A L acquired_at T R) in
    run! EXPIRE k_meta ttl in
    run! SET k_agent L SetAlways ttl in
    ret (AcqReply 1 (Some ttl) None)
  else
    let! agent_score := ZSCORE k_queue A in
    match agent_score with
    | Some _ =>
        let! position := ZRANK k_queue A in
        run! SET k_agent L SetAlways 3600 in
        ret (AcqReply 0 position None)
    | None =>
        run! ZADD k_queue score A in
        run! SET k_agent L SetAlways 3600 in
        let! position := ZRANK k_queue A in
        ret (AcqReply 0 position None)
    end.

(** [acquire_script].  KEYS = lock, meta, queue, agent_lock, cancel keys;
    ARGV = agent id, ttl, lock id, acquired_at, resource type, resource id,
    priority score, reentrant flag (numbers and the flag are passed as text
    and read back with [tonumber] and [== "1"]).  When the caller owns the
    lock and asks for reentrancy but its agent_lock mapping is missing, the
    script falls through to the conditional create. *)
Definition acquire_script (k_lock k_meta k_queue k_agent k_cancel : string)
    (A : string) (ttl : Z) (L acquired_at T R : string) (score : Z)
    (allow_reentrant : bool) : script acq_reply :=
  let try_acquire :=
    acquire_or_queue k_lock k_meta k_queue k_agent A ttl L acquired_at T R score in
  let! cancel_flag := GET k_cancel in
  match cancel_flag with
  | Some _ =>
      run! DEL k_cancel in
      ret (AcqReply (-1) (Some 0) None)
  | None =>
      let! current_owner := GET k_lock in
      if decide (current_owner = Some A) then
        if allow_reentrant then
          let! existing_lock_id := GET k_agent in
          match existing_lock_id with
          | Some existing =>
              run! EXPIRE k_lock ttl in
              run! EXPIRE (meta_key existing) ttl in
              run! EXPIRE k_agent ttl in
              ret (AcqReply 2 (Some ttl) (Some existing))
          | None => try_acquire
          end
        else ret (AcqReply (-2) (Some 0) None)
      else try_acquire
  end.

Inductive acquire_result : Type :=
  | AcqCancelled (message : string)
  | AcqError (message : string)
  | Acquired (lock_id : string) (expires_in : Z)
  | AlreadyOwned (lock_id : string) (expires_in : Z)   (* "extended": True *)
  | Queued (lock_id : string) (position : Z).

Definition acquire_status (r : acquire_result) : string :=
  match r with
  | AcqCancelled _ => "cancelled"
  | AcqError _ => "error"
  | Acquired _ _ => "acquired"
  | AlreadyOwned _ _ => "already_owned"
  | Queued _ _ => "queued"
  end.

(** [ttl or self.default_ttl] *)
Definition effective_ttl (default_ttl : Z) (ttl : option Z) : Z :=
  match ttl with
  | Some t => if (t =? 0)%Z then default_ttl else t
  | None => default_ttl
  end.

(** The [if status_code == ...] chain of [acquire_lock]: the dictionary it
    returns for a reply [{status_code, value, extra}]. *)
Definition acquire_answer (lock_id : string) (code v : Z) (x : option string)
    : acquire_result :=
  if code =? -1 then AcqCancelled "Lock request was cancelled"
  else if code =? -2 then
    AcqError "Agent already holds this lock (re-entrancy not allowed)"
  else if code =? 1 then Acquired lock_id v
  else if code =? 2 then AlreadyOwned (default lock_id x) v
  else Queued lock_id (v + 1).

(** [acquire_lock].  [default_ttl] is the engine's constructor argument;
    [rnd] is the randomness [uuid.uuid4()] draws in this call and [host_now]
    the value of [datetime.utcnow()]. *)
Definition acquire_lock (default_ttl : Z) (rnd : Z) (host_now : Host.datetime)
    (resource_type resource_id agent_id : string) (priority : Z)
    (ttl : option Z) (allow_reentrant : bool) : script acquire_result :=
  let lock_id := Host.uuid_str (Host.uuid4 rnd) in
  let ttl := effective_ttl default_ttl ttl in
  let! result := acquire_script
      (lock_key resource_type resource_id) (meta_key lock_id)
      (queue_key resource_type resource_id)
      (agent_lock_key resource_type resource_id agent_id)
      (cancel_key resource_type resource_id agent_id)
      agent_id ttl lock_id (Host.isoformat host_now)
      resource_type resource_id (- priority) allow_reentrant in
  match acq_value result with
  | None => throw PyIndexError
  | Some value =>
      ret (acquire_answer lock_id (acq_code result) value (acq_extra result))
  end.

(** *** release *)

(** The handoff loop of [release_script]: at most [retries] pops; a popped
    agent with a cancel flag is dropped and the search goes on.  The result
    is what the locals [next_agent_id] and [next_lock_id], declared before
    the loop, hold when it ends; the popped pair [next_in_queue] is a local
    of the loop body and is not visible after it. *)
Fixpoint handoff_loop (retries : nat) (k_queue T R : string)
    : script (option (string * string)) :=
  match retries with
  | O => ret None
  | S n =>
      let! next_in_queue := ZPOPMIN k_queue in
      match next_in_queue with
      | None => ret None
      | Some (next_agent_id, _) =>
          let! was_cancelled := GET (cancel_key T R next_agent_id) in
          match was_cancelled with
          | Some _ =>
              run! DEL (cancel_key T R next_agent_id) in
              run! DEL (agent_lock_key T R next_agent_id) in
              handoff_loop n k_queue T R
          | None =>
              let! next_lock_id := GET (agent_lock_key T R next_agent_id) in
              match next_lock_id with
              | Some l => ret (Some (next_agent_id, l))
              | None =>
                  let! counter := INCR counter_key in
                  ret (Some (next_agent_id, "fallback_" ++ Str.of_Z counter))
              end
          end
      end
  end.

(** The grant block of [release_script] ([if next_agent_id then ...]). *)
Definition grant_next (k_meta k_lock k_queue k_owner_agent : string)
    (T R : string) (ttl : Z) (next_agent_id next_lock_id : string)
    : script (Z * string * string) :=
  run! DEL k_meta in
  run! DEL k_owner_agent in
  run! SET k_lock next_agent_id SetXX ttl in
  let! verify := GET k_lock in
  if decide (verify = Some next_agent_id) then
    let! acquired_at := TIME_seconds in
    run! HSET (meta_key next_lock_id)
           (meta_fields k_lock next_agent_id next_lock_id acquired_at T R) in
    run! EXPIRE (meta_key next_lock_id) ttl in
    run! SET (agent_lock_key T R next_agent_id) next_lock_id SetAlways ttl in
    run! PUBLISH (grant_channel k_lock) (next_agent_id ++ ":" ++ next_lock_id) in
    ret (1, next_agent_id, next_lock_id)
  else
    (* redis.call('ZADD', queue_key, next_in_queue[2], next_agent_id):
       [next_in_queue] was declared [local] inside the loop body, so here the
       name is an undefined global and indexing it aborts the script. *)
    throw (LuaError "Script attempted to access nonexistent global variable 'next_in_queue'").

(** [release_script].  KEYS[1] = metadata key; ARGV = agent id (or the empty
    string), default ttl, idempotent flag.  The reply is
    [{code, text, text, ""}]. *)
Definition release_script (k_meta : string) (agent_arg : string) (ttl : Z)
    (idempotent : bool) : script (Z * string * string) :=
  let! meta := HGETALL k_meta in
  if decide (meta = ∅) then
    if idempotent then ret (0, "", "")
    else ret (-1, "Lock not found or already expired", "")
  else
    let owner_agent_id := meta !! "agent_id" in
    let resource_type := meta !! "resource_type" in
    let resource_id := meta !! "resource_id" in
    match meta !! "lock_key" with
    | None => ret (-2, "Invalid lock metadata", "")
    | Some k_lock =>
        if decide (agent_arg ≠ "" ∧ Some agent_arg ≠ owner_agent_id) then
          ret (-3, "Permission denied: not lock owner", "")
        else
          let! current_owner := GET k_lock in
          match current_owner with
          | None =>
              run! DEL k_meta in
              let! T := lua_str "resource_type" resource_type in
              let! R := lua_str "resource_id" resource_id in
              let! A := lua_str "owner_agent_id" owner_agent_id in
              run! DEL (agent_lock_key T R A) in
              if idempotent then ret (0, "", "")
              else ret (-4, "Lock expired before release", "")
          | Some _ =>
              if decide (current_owner ≠ owner_agent_id) then
                ret (-5, "Lock ownership changed during release", "")
              else
                let k_queue := Str.gsub k_lock "lock:" "queue:" in
                let! T := lua_str "resource_type" resource_type in
                let! R := lua_str "resource_id" resource_id in
                let! A := lua_str "owner_agent_id" owner_agent_id in
                let k_owner_agent := agent_lock_key T R A in
                let! next := handoff_loop 10 k_queue T R in
                match next with
                | Some (next_agent_id, next_lock_id) =>
                    grant_next k_meta k_lock k_queue k_owner_agent T R ttl
                      next_agent_id next_lock_id
                | None =>
                    run! DEL k_lock in
                    run! DEL k_meta in
                    run! DEL k_owner_agent in
                    ret (0, "", "")
                end
          end
    end.

Inductive release_result : Type :=
  | RelError (message : string)
  | Released (next : option (string * string)).   (* next_agent, next_lock_id *)

Definition release_status (r : release_result) : string :=
  match r with
  | RelError _ => "error"
  | Released _ => "released"
  end.

(** [release_lock]; [agent_id or ""] turns [None] and [""] into [""]. *)
Definition release_lock (default_ttl : Z) (lock_id : string)
    (agent_id : option string) (idempotent : bool) : script release_result :=
  let! result := release_script (meta_key lock_id) (default "" agent_id)
                   default_ttl idempotent in
  let '(status_code, r1, r2) := result in
  if (status_code <? 0)%Z then ret (RelError r1)
  else if (status_code =? 1)%Z then ret (Released (Some (r1, r2)))
  else ret (Released None).

(** *** status *)

Inductive status_result : Type :=
  | Expired
  | Active (agent_id acquired_at resource_type resource_id : option string).

(** Second read of [check_lock_status], on the metadata already loaded. *)
Definition status_of_meta (meta : gmap string string) : script status_result :=
  let active :=
    ret (Active (meta !! "agent_id") (meta !! "acquired_at")
                (meta !! "resource_type") (meta !! "resource_id")) in
  match meta !! "lock_key" with
  | Some k_lock =>
      if decide (k_lock = "") then active
      else
        let! owner := GET k_lock in
        match owner with
        | None => ret Expired
        | Some o => if decide (o = "") then ret Expired else active
        end
  | None => active
  end.

(** [check_lock_status]: two separate reads, here with nothing in between. *)
Definition check_lock_status (lock_id : string) : script status_result :=
  let! meta := HGETALL (meta_key lock_id) in
  if decide (meta = ∅) then ret Expired
  else status_of_meta meta.

(** *** cancel *)

Definition cancel_script (k_queue k_agent k_cancel A : string)
    : script (Z * string) :=
  let! removed := ZREM k_queue A in
  if (0 <? removed)%Z then
    run! DEL k_agent in
    ret (1, "removed_from_queue")
  else
    run! SET k_cancel "1" SetAlways 60 in
    ret (0, "not_in_queue_flag_set").

(** The dictionary [{"status": "cancelled", "detail": detail}]. *)
Record cancel_result : Type := CancelResult {
  cancel_status : string; cancel_detail : string
}.

Definition cancel_lock_request (resource_type resource_id agent_id : string)
    : script cancel_result :=
  let! result := cancel_script (queue_key resource_type resource_id)
                   (agent_lock_key resource_type resource_id agent_id)
                   (cancel_key resource_type resource_id agent_id) agent_id in
  ret (CancelResult "cancelled" result.2).

(** *** extend *)

(** [extend_script]; a missing [lock_key] field makes [redis.call('GET', nil)]
    abort the script. *)
Definition extend_script (k_meta agent_arg : string) (ttl_added : Z)
    (T R : string) : script (Z * (string + Z)) :=
  let! meta := HGETALL k_meta in
  if decide (meta = ∅) then ret (-1, inl "Lock metadata not found")
  else
    let owner := meta !! "agent_id" in
    if decide (agent_arg ≠ "" ∧ Some agent_arg ≠ owner) then
      ret (-2, inl "Not lock owner")
    else
      match meta !! "lock_key" with
      | None => throw (LuaError "redis.call argument is nil")
      | Some k_lock =>
          let! current_owner := GET k_lock in
          match current_owner with
          | None => ret (-3, inl "Lock expired")
          | Some co =>
              if decide (current_owner ≠ owner) then
                ret (-4, inl "Lock ownership changed")
              else
                let! expire_result_1 := EXPIRE k_lock ttl_added in
                let! expire_result_2 := EXPIRE k_meta ttl_added in
                run! EXPIRE (agent_lock_key T R co) ttl_added in
                if (expire_result_1 =? 0)%Z || (expire_result_2 =? 0)%Z then
                  ret (-5, inl "Lock expired during extend")
                else ret (1, inr ttl_added)
          end
      end.

Inductive extend_result : Type :=
  | ExtError (message : string)
  | Extended (new_ttl : Z).

(** [extend_lock]: the wrapper first loads the metadata for the resource
    names, then runs the script. *)
Definition extend_lock (lock_id : string) (additional_ttl : Z)
    (agent_id : option string) : script extend_result :=
  let! meta := HGETALL (meta_key lock_id) in
  if decide (meta = ∅) then ret (ExtError "Lock not found")
  else
    let resource_type := default "" (meta !! "resource_type") in
    let resource_id := default "" (meta !! "resource_id") in
    let! result := extend_script (meta_key lock_id) (default "" agent_id)
                     additional_ttl resource_type resource_id in
    match result with
    | (_, inl message) => ret (ExtError message)
    | (_, inr new_ttl) => ret (Extended new_ttl)
    end.

(** *** cleanup *)

Fixpoint for_each (ks : list string) (body : string → script unit) : script unit :=
  match ks with
  | [] => ret tt
  | k :: ks' => run! body k in for_each ks' body
  end.

Fixpoint cleanup_metas (ks : list string) (cleaned : Z) : script Z :=
  match ks with
  | [] => ret cleaned
  | k_meta :: ks' =>
      let! meta := HGETALL k_meta in
      match meta !! "lock_key" with
      | Some k_lock =>
          run! DEL k_lock in
          run! DEL k_meta in
          run! DEL (Str.gsub k_lock "lock:" "queue:") in
          cleanup_metas ks' (cleaned + 1)
      | None => cleanup_metas ks' cleaned
      end
  end.

Definition cleanup_script : script Z :=
  let! metas := (λ s, Ok (keys_with_prefix "lock_meta:" s) s) in
  let! cleaned := cleanup_metas metas 0 in
  let! agent_locks := (λ s, Ok (keys_with_prefix "agent_lock:" s) s) in
  run! for_each agent_locks (λ k, run! DEL k in ret tt) in
  let! cancels := (λ s, Ok (keys_with_prefix "cancel:" s) s) in
  run! for_each cancels (λ k, run! DEL k in ret tt) in
  ret cleaned.

(** [{"status": "cleaned", "locks_released": cleaned}] *)
Definition cleanup_all_locks : script Z := cleanup_script.

(** *** queue position *)

(** [get_queue_position]: the one-based rank of the agent in the queue of
    the resource, [None] when it is not queued. *)
Definition get_queue_position (resource_type resource_id agent_id : string)
    : script (option Z) :=
  let! position := ZRANK (queue_key resource_type resource_id) agent_id in
  ret (match position with
       | Some p => Some (p + 1)
       | None => None
       end).

End LockManager.

(** ** The HTTP facade: [api/main.py] *)

Module Api.
Import Redis.

(** A JSON request body: an object of scalar fields. *)
Inductive json : Type :=
  | JNull
  | JBool (b : bool)
  | JInt (z : Z)
  | JStr (s : string).

Fixpoint field (name : string) (body : list (string * json)) : option json :=
  match body with
  | [] => None
  | (n, v) :: body' =>
      match field name body' with
      | Some v' => Some v'                    (* a repeated name: the last wins *)
      | None => if decide (n = name) then Some v else None
      end
  end.

(** [class AcquireLockRequest(BaseModel)] *)
Record AcquireLockRequest : Type := {
  acq_resource_type : string;
  acq_resource_id : string;
  acq_agent_id : string;
  acq_priority : Z;           (* = 5 *)
  acq_ttl : option Z          (* = None *)
}.

(** [class ReleaseLockRequest(BaseModel)] *)
Record ReleaseLockRequest : Type := {
  rel_lock_id : string;
  rel_agent_id : option string   (* = None *)
}.

(** [class CancelLockRequest(BaseModel)] *)
Record CancelLockRequest : Type := {
  can_resource_type : string;
  can_resource_id : string;
  can_agent_id : string
}.

(** The validation library (pydantic) reads a JSON value of the declared
    type as it is, and in its lax mode also accepts some values of another
    type.  A boolean is read as the integer 0 or 1.  Which strings it reads
    as integers, and whether it reads a number or a boolean as text, differs
    between its versions; that part of the library is a parameter here. *)
Record coercion : Type := Coercion {
  int_of_text : string → option Z;       (* a JSON string read as an integer *)
  text_of_value : json → option string   (* a JSON number or boolean read as text *)
}.


(** A value validated as [int]. *)
Definition as_int (lib : coercion) (v : json) : option Z :=
  match v with
  | JInt z => Some z
  | JBool b => Some (if b then 1 else 0)
  | JStr s => int_of_text lib s
  | JNull => None
  end.

(** A value validated as [str]. *)
Definition as_str (lib : coercion) (v : json) : option string :=
  match v with
  | JStr s => Some s
  | JNull => None
  | _ => text_of_value lib v
  end.

(** A field declared [name: str]. *)
Definition required_str (lib : coercion) (name : string) (body : list (string * json))
    : option string :=
  match field name body with
  | Some v => as_str lib v
  | None => None
  end.

(** A field declared [name: Optional[int] = None]: absent or [null] is
    [None]; [inl] is a validation failure. *)
Definition optional_int (lib : coercion) (name : string) (body : list (string * json))
    : unit + option Z :=
  match field name body with
  | None | Some JNull => inr None
  | Some v =>
      match as_int lib v with
      | Some z => inr (Some z)
      | None => inl tt
      end
  end.

(** A field declared [name: Optional[str] = None]. *)
Definition optional_str (lib : coercion) (name : string) (body : list (string * json))
    : unit + option string :=
  match field name body with
  | None | Some JNull => inr None
  | Some v =>
      match as_str lib v with
      | Some s => inr (Some s)
      | None => inl tt
      end
  end.

(** A field declared [name: int = d]: absent is the default, [null] is a
    validation failure. *)
Definition int_with_default (lib : coercion) (name : string) (d : Z)
    (body : list (string * json)) : option Z :=
  match field name body with
  | None => Some d
  | Some v => as_int lib v
  end.

(** Validation of a body against a request model: the declared fields are
    read, any other field of the body is ignored. *)
Definition parse_acquire (lib : coercion) (body : list (string * json))
    : option AcquireLockRequest :=
  match required_str lib "resource_type" body, required_str lib "resource_id" body,
        required_str lib "agent_id" body, int_with_default lib "priority" 5 body,
        optional_int lib "ttl" body with
  | Some T, Some R, Some A, Some p, inr t =>
      Some {| acq_resource_type := T; acq_resource_id := R;
              acq_agent_id := A; acq_priority := p; acq_ttl := t |}
  | _, _, _, _, _ => None
  end.

Definition parse_release (lib : coercion) (body : list (string * json))
    : option ReleaseLockRequest :=
  match required_str lib "lock_id" body, optional_str lib "agent_id" body with
  | Some L, inr a => Some {| rel_lock_id := L; rel_agent_id := a |}
  | _, _ => None
  end.

Definition parse_cancel (lib : coercion) (body : list (string * json))
    : option CancelLockRequest :=
  match required_str lib "resource_type" body, required_str lib "resource_id" body,
        required_str lib "agent_id" body with
  | Some T, Some R, Some A =>
      Some {| can_resource_type := T; can_resource_id := R; can_agent_id := A |}
  | _, _, _ => None
  end.

Inductive response (A : Type) : Type :=
  | Http200 (body : A)
  | Http422                      (* request validation failed *)
  | Http500 (e : script_error).  (* HTTPException(status_code=500) *)
Arguments Http200 {A} body.
Arguments Http422 {A}.
Arguments Http500 {A} e.

(** [lock_manager = LockManager(redis_url=...)]: the default ttl is the
    constructor's default. *)
Definition default_ttl : Z := 300.

Definition respond {A} (o : outcome A) : response A * store :=
  match o with
  | Ok a s => (Http200 a, s)
  | Fail e s => (Http500 e, s)
  end.

(** [POST /v1/locks/acquire] *)
Definition acquire_lock (lib : coercion) (rnd : Z) (host_now : Host.datetime)
    (body : list (string * json)) (s : store)
    : response LockManager.acquire_result * store :=
  match parse_acquire lib body with
  | None => (Http422, s)
  | Some request =>
      respond (LockManager.acquire_lock default_ttl rnd host_now
                 (acq_resource_type request) (acq_resource_id request)
                 (acq_agent_id request) (acq_priority request)
                 (acq_ttl request) false s)
  end.

(** [POST /v1/locks/release] *)
Definition release_lock (lib : coercion) (body : list (string * json)) (s : store)
    : response LockManager.release_result * store :=
  match parse_release lib body with
  | None => (Http422, s)
  | Some request =>
      respond (LockManager.release_lock default_ttl (rel_lock_id request)
                 (rel_agent_id request) true s)
  end.

(** [POST /v1/locks/cancel] *)
Definition cancel_lock (lib : coercion) (body : list (string * json)) (s : store)
    : response LockManager.cancel_result * store :=
  match parse_cancel lib body with
  | None => (Http422, s)
  | Some request =>
      respond (LockManager.cancel_lock_request (can_resource_type request)
                 (can_resource_id request) (can_agent_id request) s)
  end.

(** [GET /v1/locks/{lock_id}/status] *)
Definition check_lock (lock_id : string) (s : store)
    : response LockManager.status_result * store :=
  respond (LockManager.check_lock_status lock_id s).

End Api.

(** ** The policy engine: [core/policy_engine.py] *)

Module PolicyEngine.

(** A value of the [metadata] dictionary.  The dictionary comes from a JSON
    body; the scalars [null], booleans, integers and strings are covered
    here (floats, lists and objects are not). *)
Inductive pyval : Type :=
  | PNone
  | PBool (b : bool)
  | PInt (z : Z)
  | PStr (s : string).

(** [class PolicyCheck(BaseModel)] *)
Record PolicyCheck : Type := {
  agent_id : string;
  action : string;
  metadata : gmap string pyval
}.

(** [class PolicyResult(BaseModel)] *)
Record PolicyResult : Type := { allowed : bool; reason : string }.

(** The exception a comparison of unordered types raises, with its text. *)
Inductive py_error : Type := TypeError (message : string).

(** [str(v)], as an f-string prints a value. *)
Definition py_str (v : pyval) : string :=
  match v with
  | PNone => "None"
  | PBool true => "True"
  | PBool false => "False"
  | PInt z => Str.of_Z z
  | PStr s => s
  end.

(** [type(v).__name__] *)
Definition py_type (v : pyval) : string :=
  match v with
  | PNone => "NoneType"
  | PBool _ => "bool"
  | PInt _ => "int"
  | PStr _ => "str"
  end.

(** [v == w]: booleans are the integers 0 and 1; values of different kinds
    are different. *)
Definition py_eq (v w : pyval) : bool :=
  match v, w with
  | PNone, PNone => true
  | PStr a, PStr b => bool_decide (a = b)
  | PBool a, PBool b => bool_decide (a = b)
  | PInt a, PInt b => (a =? b)%Z
  | PBool a, PInt b => ((if a then 1 else 0) =? b)%Z
  | PInt a, PBool b => (a =? (if b then 1 else 0))%Z
  | _, _ => false
  end.

(** [v > n] for an integer [n]. *)
Definition py_gt_int (v : pyval) (n : Z) : py_error + bool :=
  match v with
  | PInt z => inr (n <? z)%Z
  | PBool b => inr (n <? (if b then 1 else 0))%Z
  | _ => inl (TypeError ("'>' not supported between instances of '" ++
                         py_type v ++ "' and 'int'"))
  end.

(** The dictionary [limits] of [_check_spend_limit]. *)
Definition limits : gmap string Z :=
  {[ "junior" := 100; "senior" := 1000; "admin" := 10000 ]}.

(** [limits.get(agent_role, 100)]: a key that is not a string is equal to
    no key of the dictionary. *)
Definition limit_of (agent_role : pyval) : Z :=
  match agent_role with
  | PStr r => default 100 (limits !! r)
  | _ => 100
  end.

Definition _check_spend_limit (check : PolicyCheck) : py_error + PolicyResult :=
  let estimated_cost := default (PInt 0) (metadata check !! "estimated_cost") in
  let agent_role := default (PStr "user") (metadata check !! "agent_role") in
  let limit := limit_of agent_role in
  match py_gt_int estimated_cost limit with
  | inl e => inl e
  | inr true =>
      inr {| allowed := false;
             reason := "Cost $" ++ py_str estimated_cost ++ " exceeds limit $" ++
                       Str.of_Z limit ++ " for role " ++ py_str agent_role |}
  | inr false => inr {| allowed := true; reason := "Within spend limit" |}
  end.

Definition _check_resource_access (check : PolicyCheck) : py_error + PolicyResult :=
  let agent_team := default (PStr "default") (metadata check !! "agent_team") in
  let resource_team := default (PStr "default") (metadata check !! "resource_team") in
  if negb (py_eq agent_team resource_team) && negb (py_eq agent_team (PStr "admin"))
  then
    inr {| allowed := false;
           reason := "Agent team '" ++ py_str agent_team ++
                     "' cannot access resource from team '" ++
                     py_str resource_team ++ "'" |}
  else inr {| allowed := true; reason := "Resource access permitted" |}.

(** [self.policies], in the order of the dictionary literal. *)
Definition policies : list (string * (PolicyCheck → py_error + PolicyResult)) :=
  [("spend_limit", _check_spend_limit);
   ("resource_access", _check_resource_access)].

(** The loop of [check_policy]: the first result that is not allowed is
    returned; an exception ends the loop. *)
Fixpoint first_denial (ps : list (string * (PolicyCheck → py_error + PolicyResult)))
    (check : PolicyCheck) : py_error + PolicyResult :=
  match ps with
  | [] => inr {| allowed := true; reason := "All policies passed" |}
  | (_, policy_func) :: ps' =>
      match policy_func check with
      | inl e => inl e
      | inr result =>
          if allowed result then first_denial ps' check else inr result
      end
  end.

Definition check_policy (check : PolicyCheck) : py_error + PolicyResult :=
  first_denial policies check.

(** [POST /v1/policies/check] of [api/main.py]: the result, or status 500
    with the text of the exception as its detail. *)
Inductive policy_response : Type :=
  | PolicyHttp200 (body : PolicyResult)
  | PolicyHttp500 (detail : string).

Definition check_policy_endpoint (request : PolicyCheck) : policy_response :=
  match check_policy request with
  | inr result => PolicyHttp200 result
  | inl (TypeError message) => PolicyHttp500 message
  end.

End PolicyEngine.

(** ** The client library: [sdk/client.py], [class ProtoMeshClient] *)

Module Client.
Import Redis Api.

(** [data.split(":", 1)]: the text before the first colon and, when there
    is a colon, the text after it. *)
Fixpoint split_colon (data : string) : string * option string :=
  match data with
  | EmptyString => (EmptyString, None)
  | String c rest =>
      if Ascii.eqb c ":" then (EmptyString, Some rest)
      else let '(before, after) := split_colon rest in (String c before, after)
  end.

(** What [pubsub.listen()] yields: a notice about the subscription itself,
    or a message published on the channel. *)
Inductive pubsub_message : Type :=
  | Control (type : string)
  | Message (data : string).

(** How [_wait_for_lock_grant] ends: the dictionary
    [{"status": "acquired", "lock_id": lock_id, "method": "pubsub"}], [None]
    at the timeout, or the exception of an index past the end. *)
Inductive wait_result : Type :=
  | Granted (lock_id : string)
  | NoGrant
  | SplitIndexError.

(** The channel the client subscribes to. *)
Definition channel (resource_type resource_id : string) : string :=
  "lock_granted:lock:" ++ resource_type ++ ":" ++ resource_id.

(** The loop over the messages that arrive before the timeout. *)
Fixpoint listen (agent_id : string) (messages : list pubsub_message) : wait_result :=
  match messages with
  | [] => NoGrant
  | Control _ :: rest => listen agent_id rest
  | Message data :: rest =>
      if String.prefix (agent_id ++ ":") data then
        match (split_colon data).2 with
        | Some lock_id => Granted lock_id
        | None => SplitIndexError
        end
      else listen agent_id rest
  end.

(** What a subscription to [channel] delivers of a publish log: the notice
    of the subscription, then the payloads published on that channel. *)
Definition deliveries (channel : string) (log : list (string * string))
    : list pubsub_message :=
  Control "subscribe" ::
  map (λ cp, Message cp.2) (filter (λ cp : string * string, cp.1 = channel) log).

(** [_wait_for_lock_grant], where [log] is what the store publishes between
    the subscription and the timeout. *)
Definition _wait_for_lock_grant (agent_id resource_type resource_id : string)
    (log : list (string * string)) : wait_result :=
  listen agent_id (deliveries (channel resource_type resource_id) log).

(** [response.raise_for_status()] *)
Inductive client_error : Type := HTTPStatusError.

Definition raise_for_status {A} (r : response A * store) : (client_error + A) * store :=
  match r with
  | (Http200 body, s) => (inr body, s)
  | (_, s) => (inl HTTPStatusError, s)
  end.

(** The JSON bodies the client posts. *)
Definition acquire_body (agent_id resource_type resource_id : string) (priority : Z)
    : list (string * json) :=
  [("resource_type", JStr resource_type); ("resource_id", JStr resource_id);
   ("agent_id", JStr agent_id); ("priority", JInt priority)].

Definition cancel_body (agent_id resource_type resource_id : string)
    : list (string * json) :=
  [("resource_type", JStr resource_type); ("resource_id", JStr resource_id);
   ("agent_id", JStr agent_id)].

Definition release_body (agent_id lock_id : string) : list (string * json) :=
  [("lock_id", JStr lock_id); ("agent_id", JStr agent_id)].

(** [_cancel_lock_request]: the answer is not read and every exception is
    swallowed. *)
Definition _cancel_lock_request (lib : coercion)
    (agent_id resource_type resource_id : string) (s : store) : store :=
  (Api.cancel_lock lib (cancel_body agent_id resource_type resource_id) s).2.

(** [release_lock]: the client always sends its own agent id. *)
Definition release_lock (lib : coercion) (agent_id lock_id : string) (s : store)
    : (client_error + LockManager.release_result) * store :=
  raise_for_status (Api.release_lock lib (release_body agent_id lock_id) s).

(** [check_lock] *)
Definition check_lock (lock_id : string) (s : store)
    : (client_error + LockManager.status_result) * store :=
  raise_for_status (Api.check_lock lock_id s).

(** The first part of [acquire_lock]: the request and the answer the client
    returns at once.  [inr None] stands for the case that goes on to wait (a
    [queued] answer with [wait=True]). *)
Definition acquire_request (lib : coercion)
    (agent_id resource_type resource_id : string)
    (priority : Z) (wait : bool) (rnd : Z) (host_now : Host.datetime) (s : store)
    : (client_error + option LockManager.acquire_result) * store :=
  match raise_for_status
          (Api.acquire_lock lib rnd host_now
             (acquire_body agent_id resource_type resource_id priority) s) with
  | (inl e, s') => (inl e, s')
  | (inr result, s') =>
      match result with
      | LockManager.Acquired _ _ => (inr (Some result), s')
      | LockManager.Queued _ _ => (inr (if wait then None else Some result), s')
      | _ => (inr (Some result), s')
      end
  end.

End Client.

(** ** Interleavings: the engine as a transition system on the store *)

Module System.
Import Redis LockManager.

(** One atomic event at the store: an engine operation of some client, or
    the passing of time.  [Extend] is the wrapper run without interruption;
    [ExtendScript] is its script alone, with the resource names a wrapper
    may have read earlier. *)
Inductive op : Type :=
  | Acquire (rnd : Z) (host_now : Host.datetime) (T R A : string)
      (priority : Z) (ttl : option Z) (reentrant : bool)
  | Release (lock_id : string) (agent_id : option string) (idempotent : bool)
  | Extend (lock_id : string) (additional_ttl : Z) (agent_id : option string)
  | ExtendScript (lock_id agent_arg : string) (ttl_added : Z) (T R : string)
  | Cancel (T R A : string)
  | Status (lock_id : string)
  | Cleanup
  | Tick (dt : Z).

Definition exec (default_ttl : Z) (o : op) (s : store) : store :=
  match o with
  | Acquire rnd host_now T R A priority ttl reentrant =>
      final (acquire_lock default_ttl rnd host_now T R A priority ttl reentrant s)
  | Release lock_id agent_id idempotent =>
      final (release_lock default_ttl lock_id agent_id idempotent s)
  | Extend lock_id additional_ttl agent_id =>
      final (extend_lock lock_id additional_ttl agent_id s)
  | ExtendScript lock_id agent_arg ttl_added T R =>
      final (extend_script (meta_key lock_id) agent_arg ttl_added T R s)
  | Cancel T R A => final (cancel_lock_request T R A s)
  | Status lock_id => final (check_lock_status lock_id s)
  | Cleanup => final (cleanup_all_locks s)
  | Tick dt => tick dt s
  end.

Definition run (default_ttl : Z) (ops : list op) (s : store) : store :=
  foldl (λ s o, exec default_ttl o s) s ops.

Definition present (k : string) (s : store) : bool :=
  match kv s !! k with Some _ => true | None => false end.

(** The value a key holds. *)
Definition val_at (k : string) (s : store) : option rvalue :=
  match kv s !! k with
  | Some e => Some (e_val e)
  | None => None
  end.

(** The current holder of a lock key. *)
Definition holder (k : string) (s : store) : option string :=
  match kv s !! k with
  | Some (Entry (RStr a) _) => Some a
  | _ => None
  end.

(** The metadata hash stored for a lock id. *)
Definition meta_of (lock_id : string) (s : store) : option (gmap string string) :=
  match kv s !! meta_key lock_id with
  | Some (Entry (RHash h) _) => Some h
  | _ => None
  end.

Definition meta_field (lock_id field : string) (s : store) : option string :=
  match meta_of lock_id s with
  | Some h => h !! field
  | None => None
  end.

(** The lock key a metadata hash refers to. *)
Definition meta_lock_key (lock_id : string) (s : store) : option string :=
  meta_field lock_id "lock_key" s.

(** The sorted set a key holds; an absent key is the empty set, a key of
    another kind has none. *)
Definition queue_of (k : string) (s : store) : option (gmap string Z) :=
  match kv s !! k with
  | None => Some ∅
  | Some (Entry (RZset z) _) => Some z
  | Some _ => None
  end.

(** The deadline of a key, if it has one. *)
Definition deadline (k : string) (s : store) : option Z :=
  match kv s !! k with
  | Some e => e_exp e
  | None => None
  end.

(** No cancel flag names the current holder of the lock it belongs to. *)
Definition cancel_inv (s : store) : Prop :=
  ∀ T R A, is_Some (kv s !! cancel_key T R A) → holder (lock_key T R) s ≠ Some A.

(** Every metadata hash names the lock key of its own resource, as the
    engine writes it. *)
Definition meta_ok (s : store) : Prop :=
  ∀ k h ex lk T R,
    kv s !! k = Some (Entry (RHash h) ex) →
    h !! "lock_key" = Some lk → h !! "resource_type" = Some T →
    h !! "resource_id" = Some R →
    lk = lock_key T R.

(** The flag a cancel for (T, R, A) writes would name a current holder. *)
Definition flag_names_holder (T R A : string) (s : store) : Prop :=
  ∃ T' R' A',
    cancel_key T' R' A' = cancel_key T R A ∧ holder (lock_key T' R') s = Some A'.

(** A is a member of the wait queue of (T, R). *)
Definition in_queue (T R A : string) (s : store) : Prop :=
  ∃ q sc, queue_of (queue_key T R) s = Some q ∧ q !! A = Some sc.

(** The event grants the lock [k]: an acquire answers [acquired] for it, or a
    release hands it to a waiter. *)
Definition grants (default_ttl : Z) (k : string) (o : op) (s : store) : bool :=
  match o with
  | Acquire rnd host_now T R A priority ttl reentrant =>
      match acquire_lock default_ttl rnd host_now T R A priority ttl reentrant s with
      | Ok (Acquired _ _) _ => bool_decide (lock_key T R = k)
      | _ => false
      end
  | Release lock_id agent_id idempotent =>
      match release_lock default_ttl lock_id agent_id idempotent s with
      | Ok (Released (Some _)) _ => bool_decide (meta_lock_key lock_id s = Some k)
      | _ => false
      end
  | _ => false
  end.

(** The event ends a grant on [k]: the lock is handed over, or its key goes
    away (released, expired or cleaned up). *)
Definition ends (default_ttl : Z) (k : string) (o : op) (s : store) : bool :=
  present k s &&
  (negb (present k (exec default_ttl o s)) ||
   match o with
   | Release _ _ _ => grants default_ttl k o s
   | _ => false
   end).

(** Grants on [k] that are still live after the events [ops] from [s], given
    [n] live ones in [s]. *)
Fixpoint live (default_ttl : Z) (k : string) (ops : list op) (s : store) (n : Z) : Z :=
  match ops with
  | [] => n
  | o :: ops' =>
      live default_ttl k ops' (exec default_ttl o s)
        (n + (if grants default_ttl k o s then 1 else 0)
           - (if ends default_ttl k o s then 1 else 0))
  end.

End System.

Module Frame.
Import Redis LockManager System.

(** ** What a script may write, whatever its outcome

    [frame V s s'] relates the store before and after a run: the clock is
    the same, and a value found under a key afterwards was there before or is
    one of the writes [V] allows.  Keys may go away. *)

Definition frame (V : string → rvalue → Prop) (s s' : store) : Prop :=
  now_ms s' = now_ms s ∧
  ∀ k x, val_at k s' = Some x → val_at k s = Some x ∨ V k x.

Definition framed {A} (V : string → rvalue → Prop) (c : script A) : Prop :=
  ∀ s, frame V s (final (c s)).

Definition no_write : string → rvalue → Prop := λ _ _, False.
Definition writes_str (k : string) : string → rvalue → Prop :=
  λ k' x, k' = k ∧ ∃ v, x = RStr v.
Definition writes_zset (k : string) : string → rvalue → Prop :=
  λ k' x, k' = k ∧ ∃ z, x = RZset z.

(** What each block of the scripts may write. *)

Definition acquire_writes (kl km kq ka A L at_ T R : string)
    : string → rvalue → Prop :=
  λ k x,
    (k = kl ∧ x = RStr A)
    ∨ (k = km ∧ ∃ h0, x = RHash (hset_fields (meta_fields kl A L at_ T R) h0))
    ∨ (k = ka ∧ x = RStr L)
    ∨ writes_zset kq k x.

Definition loop_writes (kq : string) : string → rvalue → Prop :=
  λ k x, writes_zset kq k x ∨ writes_str counter_key k x.

Definition grant_writes (kl T R N L' : string) : string → rvalue → Prop :=
  λ k x,
    (k = kl ∧ x = RStr N)
    ∨ (k = meta_key L' ∧
       ∃ at_ h0, x = RHash (hset_fields (meta_fields kl N L' at_ T R) h0))
    ∨ (k = agent_lock_key T R N ∧ x = RStr L').

Definition cancel_writes (kq kc : string) : string → rvalue → Prop :=
  λ k x, writes_zset kq k x ∨ (k = kc ∧ x = RStr "1").

(** A metadata hash that names the lock key of its own resource. *)
Definition hash_ok (h : gmap string string) : Prop :=
  ∀ lk T R, h !! "lock_key" = Some lk → h !! "resource_type" = Some T →
            h !! "resource_id" = Some R → lk = lock_key T R.

(** The two properties of the cancel-flag invariant, kept together. *)
Definition engine_inv (s : store) : Prop := cancel_inv s ∧ meta_ok s.

(** The kind of value the engine keeps under a key, by the key's prefix:
    hashes under [lock_meta:], sorted sets under [queue:], strings elsewhere. *)
Definition typed (k : string) (x : rvalue) : Prop :=
  match x with
  | RStr _ => String.prefix "lock_meta:" k = false ∧ String.prefix "queue:" k = false
  | RHash _ => String.prefix "lock_meta:" k = true
  | RZset _ => String.prefix "queue:" k = true
  end.

Definition well_typed (s : store) : Prop :=
  ∀ k x, val_at k s = Some x → typed k x.

(** A keyspace as the engine writes it. *)
Definition well_formed (s : store) : Prop := meta_ok s ∧ well_typed s.

End Frame.

Module Footprint.
Import Redis.

(** ** The keys a script may touch

    [touches K c]: whatever its outcome, a run of [c] leaves the entry
    (value and deadline) of every key outside [K] as it was. *)
Definition touches {A} (K : string → Prop) (c : script A) : Prop :=
  ∀ s k, ¬ K k → kv (final (c s)) !! k = kv s !! k.

End Footprint.

(** ** Concrete scenarios, built by running the engine from the empty store *)

Module Scenario.
Import Redis LockManager System.

Definition t0 : Host.datetime := Host.DateTime 2024 1 2 3 4 5 0.

(** The lock id minted by the [n]-th call. *)
Definition lid (n : Z) : string := Host.uuid_str (Host.uuid4 n).

(** agent_a holds (customer, 123). *)
Definition held : store :=
  run 300 [Acquire 1 t0 "customer" "123" "agent_a" 5 None false] empty_store.

(** agent_a holds (customer, 123); agent_b (priority 3) and agent_c
    (priority 10) wait. *)
Definition queued : store :=
  run 300 [Acquire 2 t0 "customer" "123" "agent_b" 3 None false;
           Acquire 3 t0 "customer" "123" "agent_c" 10 None false] held.

(** agent_a holds (customer, 123) and has asked to cancel: it is not in the
    queue, so the cancel left a flag. *)
Definition held_cancelled : store :=
  run 300 [Cancel "customer" "123" "agent_a"] held.

(** agent_b once held (customer, 123) under the lock id [lid 3] and shortened
    the lease of the lock key, but not of that metadata, through a reentrant
    acquire that found another lock id in its mapping; the lock expired and
    agent_c acquired it. *)
Definition stale_meta : store :=
  run 300 [Acquire 2 t0 "customer" "123" "agent_b" 5 None false;
           Tick 301000;
           Acquire 3 t0 "customer" "123" "agent_b" 5 None false;
           Cancel "customer" "123" "agent_b";
           Acquire 4 t0 "customer" "123" "agent_b" 5 (Some 10) true;
           Acquire 5 t0 "customer" "123" "agent_b" 5 (Some 10) true;
           Tick 11000;
           Acquire 6 t0 "customer" "123" "agent_c" 5 None false] held.


(** agent_a holds (customer, 123); agent_b waits with priority 2^53 and
    agent_c with priority 2^53 + 1. *)
Definition big_priorities : store :=
  run 300 [Acquire 2 t0 "customer" "123" "agent_b" 9007199254740992 None false;
           Acquire 3 t0 "customer" "123" "agent_c" 9007199254740993 None false] held.

(** agent_a holds (customer, 123); the agent [x:y] waits with priority 10
    and agent_b with priority 3; a cancel for agent [y] on the resource
    (customer, 123:x) has left the flag cancel:customer:123:x:y, which is the
    flag key of [x:y] on (customer, 123). *)
Definition flagged_waiter : store :=
  run 300 [Acquire 2 t0 "customer" "123" "x:y" 10 None false;
           Acquire 3 t0 "customer" "123" "agent_b" 3 None false;
           Cancel "customer" "123:x" "y"] held.

(** The metadata of lock id [lid 3] has outlived its lock key: as
    [stale_meta], before agent_c comes. *)
Definition orphan_meta : store :=
  run 300 [Acquire 2 t0 "customer" "123" "agent_b" 5 None false;
           Tick 301000;
           Acquire 3 t0 "customer" "123" "agent_b" 5 None false;
           Cancel "customer" "123" "agent_b";
           Acquire 4 t0 "customer" "123" "agent_b" 5 (Some 10) true;
           Acquire 5 t0 "customer" "123" "agent_b" 5 (Some 10) true;
           Tick 11000] held.

(** agent_a holds (customer, 123); ten agents [w:0] ... [w:9] wait with
    priority 9, each with a cancel flag (left by cancels for the agents [0]
    ... [9] on the resource (customer, 123:w)), and agent_z waits with
    priority 1. *)
Definition ten_flagged_waiters : store :=
  let names := ["0"; "1"; "2"; "3"; "4"; "5"; "6"; "7"; "8"; "9"] in
  run 300
    (imap (λ i n, Acquire (10 + Z.of_nat i) t0 "customer" "123" ("w:" ++ n) 9 None false)
          names ++
     [Acquire 30 t0 "customer" "123" "agent_z" 1 None false] ++
     map (λ n, Cancel "customer" "123:w" n) names)
    held.

(** An agent id with a colon: [c:d] holds (a, b). *)
Definition colon_holder : store :=
  run 300 [Acquire 1 t0 "a" "b" "c:d" 5 None false] empty_store.

(** A resource type that ends in [lock]: agent_a holds (block, 1) and
    agent_b waits for it; agent_x holds (bqueue, 1) and agent_c waits for
    that. *)
Definition block_waiters : store :=
  run 300 [Acquire 1 t0 "block" "1" "agent_a" 5 None false;
           Acquire 2 t0 "block" "1" "agent_b" 5 None false;
           Acquire 3 t0 "bqueue" "1" "agent_x" 5 None false;
           Acquire 4 t0 "bqueue" "1" "agent_c" 5 None false] empty_store.

End Scenario.

(** * Properties *)

Import Redis LockManager System Frame.

(** ** Strings and keys *)

Lemma app_String c (s t : string) : String c s ++ t = String c (s ++ t).
Proof. reflexivity. Qed.

Lemma app_Empty (t : string) : "" ++ t = t.
Proof. reflexivity. Qed.

Lemma string_app_assoc (a b c : string) : (a ++ b) ++ c = a ++ (b ++ c).
Proof. induction a; rewrite ?app_String, ?app_Empty; congruence. Qed.

Lemma string_app_inj_l (a b c : string) : a ++ b = a ++ c → b = c.
Proof.
  induction a; rewrite ?app_String, ?app_Empty; intros H; [done|].
  injection H. auto.
Qed.

(** Keys of different kinds start differently, so they never coincide. *)
Ltac key_neq :=
  unfold lock_key, queue_key, agent_lock_key, cancel_key, meta_key, counter_key;
  rewrite ?app_String, ?app_Empty; congruence.

Lemma lock_key_inj T R T' R' :
  lock_key T R = lock_key T' R' → T ++ ":" ++ R = T' ++ ":" ++ R'.
Proof. unfold lock_key. apply (string_app_inj_l "lock:"). Qed.

Lemma cancel_key_resource T R A T' R' :
  T ++ ":" ++ R = T' ++ ":" ++ R' → cancel_key T R A = cancel_key T' R' A.
Proof.
  unfold cancel_key. intros H.
  replace (T ++ ":" ++ R ++ ":" ++ A) with ((T ++ ":" ++ R) ++ ":" ++ A)
    by (by rewrite !string_app_assoc).
  replace (T' ++ ":" ++ R' ++ ":" ++ A) with ((T' ++ ":" ++ R') ++ ":" ++ A)
    by (by rewrite !string_app_assoc).
  by rewrite H.
Qed.

Lemma gsub_lock_prefix s :
  Str.gsub ("lock:" ++ s) "lock:" "queue:" = "queue:" ++ Str.gsub s "lock:" "queue:".
Proof. unfold Str.gsub. destruct s; reflexivity. Qed.

(** A text in which the pattern does not occur is left as it is. *)
Lemma gsub_no_occurrence pat rep s :
  Str.occurs pat s = false → Str.gsub s pat rep = s.
Proof.
  unfold Str.gsub. induction s as [|c s IH]; [done|].
  cbn [Str.occurs Str.gsub_go]. intros [Hp Hs]%orb_false_iff.
  rewrite Hp. by rewrite IH.
Qed.

(** For resource names in which the text [lock:] does not occur, the queue
    key release derives from the lock key is the one acquire used. *)
Lemma release_queue_key T R :
  Str.occurs "lock:" (T ++ ":" ++ R) = false →
  Str.gsub (lock_key T R) "lock:" "queue:" = queue_key T R.
Proof.
  intros H. unfold lock_key, queue_key.
  by rewrite gsub_lock_prefix, gsub_no_occurrence.
Qed.

(** ** The order of a sorted set *)

Section SortedSetOrder.

Lemma str_compare_refl (a : string) : String.compare a a = Eq.
Proof.
  induction a as [|c a IH]; [done|]. cbn.
  unfold Ascii.compare. by rewrite N.compare_refl.
Qed.

Lemma str_leb_refl (a : string) : String.leb a a = true.
Proof. unfold String.leb. by rewrite str_compare_refl. Qed.

Lemma str_compare_not_gt_trans (a b c : string) :
  String.compare a b ≠ Gt → String.compare b c ≠ Gt → String.compare a c ≠ Gt.
Proof.
  revert b c. induction a as [|x a IH]; intros [|y b] [|z c]; cbn; try done.
  unfold Ascii.compare.
  destruct (N.compare_spec (N_of_ascii x) (N_of_ascii y)) as [Hxy|Hxy|Hxy];
  destruct (N.compare_spec (N_of_ascii y) (N_of_ascii z)) as [Hyz|Hyz|Hyz];
  destruct (N.compare_spec (N_of_ascii x) (N_of_ascii z)) as [Hxz|Hxz|Hxz];
    try done; try lia.
  apply IH.
Qed.

Lemma str_leb_trans (a b c : string) :
  String.leb a b = true → String.leb b c = true → String.leb a c = true.
Proof.
  unfold String.leb. intros H1 H2.
  pose proof (str_compare_not_gt_trans a b c) as H.
  destruct (String.compare a b), (String.compare b c), (String.compare a c);
    try done; exfalso; apply H; done.
Qed.

Lemma zle_refl x : zle x x = true.
Proof.
  unfold zle. rewrite Z.eqb_refl, str_leb_refl.
  by rewrite orb_true_r.
Qed.

Lemma zle_total x y : zle x y = true ∨ zle y x = true.
Proof.
  unfold zle. destruct (Z.lt_total x.2 y.2) as [H|[H|H]].
  - left. apply orb_true_iff. left. by apply Z.ltb_lt.
  - destruct (String.leb_total x.1 y.1) as [Hs|Hs]; [left|right];
      apply orb_true_iff; right; rewrite Hs, andb_true_r; apply Z.eqb_eq; lia.
  - right. apply orb_true_iff. left. by apply Z.ltb_lt.
Qed.

Lemma zle_trans x y z : zle x y = true → zle y z = true → zle x z = true.
Proof.
  unfold zle. rewrite !orb_true_iff, !andb_true_iff, !Z.ltb_lt, !Z.eqb_eq.
  intros [H1|[H1 L1]] [H2|[H2 L2]]; try (left; lia).
  right. split; [lia|]. by eapply str_leb_trans.
Qed.

(** The order in plain terms: a smaller score, or the same score and a
    member that does not come later in byte order. *)
Lemma zle_spec m sc m' sc' :
  zle (m, sc) (m', sc') = true ↔ sc < sc' ∨ (sc = sc' ∧ String.leb m m' = true).
Proof.
  unfold zle. cbn. by rewrite orb_true_iff, andb_true_iff, Z.ltb_lt, Z.eqb_eq.
Qed.

Lemma zmin_list_spec l x :
  zmin_list l = Some x → x ∈ l ∧ ∀ y, y ∈ l → zle x y = true.
Proof.
  revert x. induction l as [|a l IH]; intros x; cbn; [done|].
  destruct (zmin_list l) as [y|] eqn:Hy.
  - destruct (IH y eq_refl) as [Hin Hmin].
    destruct (zle a y) eqn:Hay; intros [= <-].
    + split; [left|]. intros z [->|Hz]%elem_of_cons; [apply zle_refl|].
      eapply zle_trans; [exact Hay|]. by apply Hmin.
    + split; [by right|]. intros z [->|Hz]%elem_of_cons; [|by apply Hmin].
      destruct (zle_total y a) as [H|H]; [done|congruence].
  - intros [= <-].
    destruct l; [|cbn in Hy; destruct (zmin_list l); [destruct (zle p p0)|]; done].
    split; [left|].
    intros z [->|Hz]%elem_of_cons; [apply zle_refl|]. by apply elem_of_nil in Hz.
Qed.

Lemma zmin_list_None l : zmin_list l = None → l = [].
Proof.
  destruct l as [|a l]; [done|]. cbn.
  destruct (zmin_list l); [destruct (zle a p)|]; done.
Qed.

Lemma zmin_spec (z : gmap string Z) m sc :
  zmin z = Some (m, sc) →
  z !! m = Some sc ∧ ∀ m' sc', z !! m' = Some sc' → zle (m, sc) (m', sc') = true.
Proof.
  unfold zmin. intros [Hin Hmin]%zmin_list_spec. split.
  - by apply elem_of_map_to_list in Hin.
  - intros m' sc' H'. apply Hmin. by apply elem_of_map_to_list.
Qed.

Lemma zmin_None (z : gmap string Z) : zmin z = None → z = ∅.
Proof. unfold zmin. intros H%zmin_list_None. by apply map_to_list_empty_iff. Qed.

End SortedSetOrder.

(** ** Running scripts: inversion of a successful run *)

Lemma bind_Ok {A B} (c : script A) (k : A → script B) s b s' :
  bind c k s = Ok b s' → ∃ a s1, c s = Ok a s1 ∧ k a s1 = Ok b s'.
Proof. unfold bind. destruct (c s) as [a s1|]; [eauto|done]. Qed.

Lemma GET_Ok k s v s' :
  GET k s = Ok v s' → s' = s ∧ holder k s = v ∧ (v = None → kv s !! k = None).
Proof.
  unfold GET, holder. destruct (kv s !! k) as [[[]]|]; intros; simplify_eq; done.
Qed.

Lemma HGETALL_Ok k s h s' :
  HGETALL k s = Ok h s' →
  s' = s ∧ (h = ∅ ∧ kv s !! k = None ∨ ∃ ex, kv s !! k = Some (Entry (RHash h) ex)).
Proof.
  unfold HGETALL. destruct (kv s !! k) as [[[]]|] eqn:E; intros H; simplify_eq.
  all: split; [done|].
  - right; eauto.
  - left; done.
Qed.

Lemma lua_str_Ok w o s v s' : lua_str w o s = Ok v s' → o = Some v ∧ s' = s.
Proof. destruct o; unfold lua_str, ret, throw; intros; simplify_eq; done. Qed.

Lemma zset_at_Ok k s z ex s' :
  zset_at k s = Ok (z, ex) s' → s' = s ∧ queue_of k s = Some z.
Proof.
  unfold zset_at, queue_of. destruct (kv s !! k) as [[[]]|]; intros; simplify_eq; done.
Qed.

(** A release that hands the lock over read a complete metadata hash, found
    its owner holding the lock, took the successor from the handoff loop and
    ran the grant block to its end. *)
Lemma release_script_handoff k_meta a ttl idem s N L' s' :
  release_script k_meta a ttl idem s = Ok (1, N, L') s' →
  ∃ h ex k_lock T R A s1,
    kv s !! k_meta = Some (Entry (RHash h) ex) ∧
    h !! "lock_key" = Some k_lock ∧ h !! "resource_type" = Some T ∧
    h !! "resource_id" = Some R ∧ h !! "agent_id" = Some A ∧
    (a = "" ∨ a = A) ∧
    holder k_lock s = Some A ∧
    handoff_loop 10 (Str.gsub k_lock "lock:" "queue:") T R s = Ok (Some (N, L')) s1 ∧
    grant_next k_meta k_lock (Str.gsub k_lock "lock:" "queue:")
      (agent_lock_key T R A) T R ttl N L' s1 = Ok (1, N, L') s'.
Proof.
  unfold release_script. intros H.
  apply bind_Ok in H as (h & s0 & Hh & H).
  apply HGETALL_Ok in Hh as [-> Hh].
  destruct (decide (h = ∅)) as [->|Hne].
  { destruct idem; cbv [ret throw] in H; simplify_eq. }
  destruct Hh as [[-> _]|[ex Hm]]; [done|].
  destruct (h !! "lock_key") as [k_lock|] eqn:Hk; [|cbv [ret throw] in H; simplify_eq].
  destruct (decide (a ≠ "" ∧ Some a ≠ h !! "agent_id")) as [|Hperm];
    [cbv [ret throw] in H; simplify_eq|].
  apply bind_Ok in H as (co & s0 & Hco & H).
  apply GET_Ok in Hco as (-> & Hco & _).
  destruct co as [co|].
  2:{ repeat (apply bind_Ok in H as (? & ? & _ & H)).
      destruct idem; cbv [ret throw] in H; simplify_eq. }
  destruct (decide (Some co ≠ h !! "agent_id")) as [|Hown%dec_stable];
    [cbv [ret throw] in H; simplify_eq|].
  apply bind_Ok in H as (T & s0 & [HT ->]%lua_str_Ok & H).
  apply bind_Ok in H as (R & s0 & [HR ->]%lua_str_Ok & H).
  apply bind_Ok in H as (A & s0 & [HA ->]%lua_str_Ok & H).
  apply bind_Ok in H as (next & s1 & Hloop & H).
  destruct next as [[N0 L0]|].
  2:{ repeat (apply bind_Ok in H as (? & ? & _ & H)).
      cbv [ret throw] in H; simplify_eq. }
  assert (N0 = N ∧ L0 = L') as [-> ->].
  { unfold grant_next in H.
    repeat (apply bind_Ok in H as (? & ? & _ & H)).
    destruct (decide _); [|cbv [ret throw] in H; simplify_eq].
    repeat (apply bind_Ok in H as (? & ? & _ & H)).
    cbv [ret throw] in H. by simplify_eq. }
  exists h, ex, k_lock, T, R, A, s1. repeat split; try done.
  - destruct (decide (a = "")); [by left|right].
    destruct (decide (a = A)); [done|]. exfalso. apply Hperm. split; [done|].
    rewrite HA. congruence.
  - rewrite Hco, Hown. done.
Qed.

Lemma release_lock_handoff d L a idem s N L' s' :
  release_lock d L a idem s = Ok (Released (Some (N, L'))) s' →
  release_script (meta_key L) (default "" a) d idem s = Ok (1, N, L') s'.
Proof.
  unfold release_lock. intros (r & s1 & Hr & H)%bind_Ok.
  destruct r as [[code r1] r2].
  destruct (code <? 0)%Z; [cbv [ret] in H; simplify_eq|].
  destruct (Z.eqb_spec code 1) as [->|]; cbv [ret] in H; by simplify_eq.
Qed.

(** ** Priority order of the handoff *)

Lemma queue_of_nonempty k s q m sc :
  queue_of k s = Some q → q !! m = Some sc → ∃ ex, kv s !! k = Some (Entry (RZset q) ex).
Proof.
  unfold queue_of. destruct (kv s !! k) as [[[]]|]; intros; simplify_eq; eauto.
Qed.

(** When the minimum of the queue has no cancel flag, the first pop of the
    loop decides the successor. *)
Lemma handoff_loop_first n k_queue T R s q N L' s1 :
  handoff_loop (S n) k_queue T R s = Ok (Some (N, L')) s1 →
  queue_of k_queue s = Some q →
  (∀ m, is_Some (q !! m) → kv s !! cancel_key T R m = None) →
  ∃ sc, zmin q = Some (N, sc).
Proof.
  intros H Hq Hflags. cbn [handoff_loop] in H.
  apply bind_Ok in H as (popped & s0 & Hpop & H).
  unfold ZPOPMIN in Hpop.
  apply bind_Ok in Hpop as ([z ex] & s0' & [-> Hz]%zset_at_Ok & Hpop).
  rewrite Hq in Hz. injection Hz as <-. cbn [fst snd] in Hpop.
  destruct (zmin q) as [[M sM]|] eqn:Hmin; [|by simplify_eq].
  injection Hpop as <- <-.
  destruct (zmin_spec _ _ _ Hmin) as [HM _].
  destruct (queue_of_nonempty _ _ _ _ _ Hq HM) as [ex' Hk].
  assert (cancel_key T R M ≠ k_queue) as Hne.
  { intros <-. rewrite Hflags in Hk by eauto. done. }
  apply bind_Ok in H as (flag & s0 & (-> & Hflag & _)%GET_Ok & H).
  assert (flag = None) as ->.
  { rewrite <-Hflag. unfold holder. cbn [kv with_kv fst snd]. unfold put_zset.
    destruct (decide _);
      [rewrite lookup_delete_ne by done|rewrite lookup_insert_ne by done];
      rewrite Hflags by eauto; done. }
  apply bind_Ok in H as (l & s0 & _ & H).
  destruct l.
  - cbv [ret] in H. simplify_eq. eauto.
  - apply bind_Ok in H as (c & s2 & _ & H). cbv [ret] in H. simplify_eq. eauto.
Qed.

(** Whenever a release hands the lock over and no agent in the queue it
    pops from (the one it derives from the lock key of the metadata) has a
    pending cancel flag, the successor is a member of that queue whose stored
    score is minimal, and among the members with that score its agent id is
    the least in byte order. *)
Lemma handoff_pops_minimum d L a idem s N L' s' k_lock T R q :
  release_lock d L a idem s = Ok (Released (Some (N, L'))) s' →
  meta_field L "lock_key" s = Some k_lock →
  meta_field L "resource_type" s = Some T →
  meta_field L "resource_id" s = Some R →
  queue_of (Str.gsub k_lock "lock:" "queue:") s = Some q →
  (∀ m, is_Some (q !! m) → kv s !! cancel_key T R m = None) →
  ∃ sc, q !! N = Some sc ∧
    ∀ m sc', q !! m = Some sc' → sc < sc' ∨ (sc = sc' ∧ String.leb N m = true).
Proof.
  intros Hrel Hk HT HR Hq Hflags.
  apply release_lock_handoff, release_script_handoff in Hrel
    as (h & ex & k' & T' & R' & A & s1 & Hm & Hk' & HT' & HR' & _ & _ & _ & Hloop & _).
  unfold meta_field, meta_of in Hk, HT, HR. rewrite Hm in Hk, HT, HR.
  simplify_eq.
  destruct (handoff_loop_first _ _ _ _ _ _ _ _ _ Hloop Hq Hflags) as [sc Hmin].
  apply zmin_spec in Hmin as [HN Hle].
  exists sc. split; [done|]. intros m sc' Hm'. by apply zle_spec, Hle.
Qed.

(** ** Commands, when they succeed *)

Ltac kv_simpl :=
  repeat first
    [ progress cbn [kv with_kv now_ms published final fst snd e_val e_exp]
    | rewrite lookup_insert_eq
    | rewrite lookup_delete_eq
    | rewrite lookup_insert_ne by (done || key_neq)
    | rewrite lookup_delete_ne by (done || key_neq) ].

Ltac script_done H := cbv [ret throw] in H; simplify_eq.

Lemma SET_Ok k v c ex s b s' :
  SET k v c ex s = Ok b s' →
  0 < ex ∧
  (b = true ∧ s' = with_kv (insert k (Entry (RStr v) (Some (now_ms s + 1000 * ex)))) s
   ∨ b = false ∧ s' = s).
Proof.
  unfold SET. destruct (Z.leb_spec ex 0); [done|].
  destruct c, (kv s !! k); intros; simplify_eq; split; auto.
Qed.

Lemma SET_NX_true k v ex s s' :
  SET k v SetNX ex s = Ok true s' → kv s !! k = None.
Proof.
  unfold SET. destruct (ex <=? 0); [done|]. by destruct (kv s !! k).
Qed.

Lemma SET_Always_Ok k v ex s b s' :
  SET k v SetAlways ex s = Ok b s' →
  0 < ex ∧ b = true ∧
  s' = with_kv (insert k (Entry (RStr v) (Some (now_ms s + 1000 * ex)))) s.
Proof.
  unfold SET. destruct (Z.leb_spec ex 0); [done|].
  destruct (kv s !! k); intros; simplify_eq; auto.
Qed.

Lemma DEL_Ok k s n s' : DEL k s = Ok n s' → s' = with_kv (delete k) s.
Proof. unfold DEL. by intros [= _ <-]. Qed.

Lemma EXPIRE_Ok k t s n s' :
  EXPIRE k t s = Ok n s' →
  (n = 0 ∧ kv s !! k = None ∧ s' = s)
  ∨ (n = 1 ∧ t ≤ 0 ∧ is_Some (kv s !! k) ∧ s' = with_kv (delete k) s)
  ∨ (n = 1 ∧ 0 < t ∧ ∃ e, kv s !! k = Some e ∧
       s' = with_kv (insert k (Entry (e_val e) (Some (now_ms s + 1000 * t)))) s).
Proof.
  unfold EXPIRE. destruct (kv s !! k) as [e|] eqn:E.
  - destruct (Z.leb_spec t 0); intros [= <- <-].
    + right; left. eauto.
    + right; right. eauto.
  - intros [= <- <-]. by left.
Qed.

Lemma HSET_Ok k fs s u s' :
  HSET k fs s = Ok u s' →
  ∃ h0 ex0,
    (kv s !! k = None ∧ h0 = ∅ ∧ ex0 = None ∨ kv s !! k = Some (Entry (RHash h0) ex0)) ∧
    s' = with_kv (insert k (Entry (RHash (hset_fields fs h0)) ex0)) s.
Proof.
  unfold HSET. destruct (kv s !! k) as [[[]]|] eqn:E; intros; simplify_eq.
  - eexists _, _. split; [right; done|done].
  - exists ∅, None. split; [left; done|done].
Qed.

Lemma meta_fields_lookup lk A L at_ T R h :
  let h' := hset_fields (meta_fields lk A L at_ T R) h in
  h' !! "lock_key" = Some lk ∧ h' !! "agent_id" = Some A ∧
  h' !! "lock_id" = Some L ∧ h' !! "acquired_at" = Some at_ ∧
  h' !! "resource_type" = Some T ∧ h' !! "resource_id" = Some R.
Proof.
  cbn. repeat split;
    repeat first [rewrite lookup_insert_eq; reflexivity
                 | rewrite lookup_insert_ne by discriminate].
Qed.

(** ** acquire, when it answers *)

Lemma acquire_lock_inv d rnd host_now T R A p ttl re s r s' :
  acquire_lock d rnd host_now T R A p ttl re s = Ok r s' →
  ∃ code v x,
    acquire_script (lock_key T R) (meta_key (Host.uuid_str (Host.uuid4 rnd)))
      (queue_key T R) (agent_lock_key T R A) (cancel_key T R A) A
      (effective_ttl d ttl) (Host.uuid_str (Host.uuid4 rnd))
      (Host.isoformat host_now) T R (- p) re s = Ok (AcqReply code (Some v) x) s' ∧
    r = acquire_answer (Host.uuid_str (Host.uuid4 rnd)) code v x.
Proof.
  unfold acquire_lock. intros ([code [v|] x] & s1 & Hs & H)%bind_Ok;
    cbn [acq_value acq_code acq_extra] in H; script_done H.
  by exists code, v, x.
Qed.

Lemma acquire_or_queue_1 kl km kq ka A ttl L at_ T R sc s v x s' :
  acquire_or_queue kl km kq ka A ttl L at_ T R sc s = Ok (AcqReply 1 v x) s' →
  kl ≠ km → kl ≠ ka → km ≠ ka →
  kv s !! kl = None ∧ 0 < ttl ∧ v = Some ttl ∧
  now_ms s' = now_ms s ∧
  ∃ h0,
    kv s' = <[ka := Entry (RStr L) (Some (now_ms s + 1000 * ttl))]>
           (<[km := Entry (RHash (hset_fields (meta_fields kl A L at_ T R) h0))
                       (Some (now_ms s + 1000 * ttl))]>
           (<[kl := Entry (RStr A) (Some (now_ms s + 1000 * ttl))]> (kv s))).
Proof.
  unfold acquire_or_queue. intros H Hlm Hla Hma.
  apply bind_Ok in H as (b & s1 & Hset & H).
  pose proof (SET_Ok _ _ _ _ _ _ _ Hset) as [Httl [[-> ->]|[-> ->]]].
  - apply SET_NX_true in Hset.
    apply bind_Ok in H as (? & s2 & (h0 & ex0 & _ & ->)%HSET_Ok & H).
    apply bind_Ok in H as (n & s3 & Hexp & H).
    apply EXPIRE_Ok in Hexp as [(_ & Hnone & _)|[(_ & ? & _)|(_ & _ & e & He & ->)]];
      [revert Hnone; kv_simpl; done|lia|].
    revert He. kv_simpl. intros [= <-]. cbn [e_val] in H.
    apply bind_Ok in H as (b & s4 & (_ & -> & ->)%SET_Always_Ok & H).
    script_done H.
    repeat split; try done. exists h0. kv_simpl.
    by rewrite insert_insert_eq.
  - apply bind_Ok in H as (sc0 & s2 & _ & H).
    destruct sc0.
    + repeat (apply bind_Ok in H as (? & ? & _ & H)). script_done H.
    + repeat (apply bind_Ok in H as (? & ? & _ & H)). script_done H.
Qed.

Lemma acquire_script_1 kl km kq ka kc A ttl L at_ T R sc re s v x s' :
  acquire_script kl km kq ka kc A ttl L at_ T R sc re s = Ok (AcqReply 1 v x) s' →
  kv s !! kc = None ∧
  acquire_or_queue kl km kq ka A ttl L at_ T R sc s = Ok (AcqReply 1 v x) s'.
Proof.
  unfold acquire_script. intros H.
  apply bind_Ok in H as (flag & s1 & (-> & _ & Hflag)%GET_Ok & H).
  destruct flag.
  { repeat (apply bind_Ok in H as (? & ? & _ & H)). script_done H. }
  split; [auto|].
  apply bind_Ok in H as (co & s1 & (-> & _ & _)%GET_Ok & H).
  destruct (decide _); [|done].
  destruct re; [|script_done H].
  apply bind_Ok in H as (ex & s1 & (-> & _ & _)%GET_Ok & H).
  destruct ex; [|done].
  repeat (apply bind_Ok in H as (? & ? & _ & H)). script_done H.
Qed.

(** An [acquired] answer: the lock key was free and now holds the caller;
    the metadata and the agent mapping are written with the same deadline. *)
Lemma acquire_lock_acquired d rnd host_now T R A p ttl re s L e s' :
  acquire_lock d rnd host_now T R A p ttl re s = Ok (Acquired L e) s' →
  L = Host.uuid_str (Host.uuid4 rnd) ∧ e = effective_ttl d ttl ∧ 0 < e ∧
  kv s !! cancel_key T R A = None ∧ kv s !! lock_key T R = None ∧
  now_ms s' = now_ms s ∧
  ∃ h0,
    kv s' = <[agent_lock_key T R A := Entry (RStr L) (Some (now_ms s + 1000 * e))]>
           (<[meta_key L :=
                Entry (RHash (hset_fields
                         (meta_fields (lock_key T R) A L (Host.isoformat host_now) T R) h0))
                      (Some (now_ms s + 1000 * e))]>
           (<[lock_key T R := Entry (RStr A) (Some (now_ms s + 1000 * e))]> (kv s))).
Proof.
  intros (code & v & x & Hs & Hr)%acquire_lock_inv.
  unfold acquire_answer in Hr.
  destruct (Z.eqb_spec code (-1)); [done|].
  destruct (Z.eqb_spec code (-2)); [done|].
  destruct (Z.eqb_spec code 1) as [->|]; [|by destruct (Z.eqb_spec code 2)].
  injection Hr as -> ->.
  apply acquire_script_1 in Hs as [Hc Hs].
  apply acquire_or_queue_1 in Hs as (Hl & Ht & [= ->] & Hnow & h0 & Hkv);
    [|key_neq..].
  repeat split; try done. eauto.
Qed.

Lemma holder_val_at k s v : holder k s = Some v ↔ val_at k s = Some (RStr v).
Proof.
  unfold holder, val_at. destruct (kv s !! k) as [[[] ?]|]; cbn; naive_solver.
Qed.

Lemma val_at_None k s : val_at k s = None ↔ kv s !! k = None.
Proof. unfold val_at. by destruct (kv s !! k). Qed.

Lemma frame_refl V s : frame V s s.
Proof. split; auto. Qed.

Lemma frame_trans V s1 s2 s3 : frame V s1 s2 → frame V s2 s3 → frame V s1 s3.
Proof.
  intros [N1 F1] [N2 F2]. split; [congruence|].
  intros k x H. destruct (F2 k x H) as [H'|]; auto.
Qed.

Lemma frame_mono (V V' : string → rvalue → Prop) s s' :
  (∀ k x, V k x → V' k x) → frame V s s' → frame V' s s'.
Proof. intros HV [N F]. split; [done|]. intros k x H. destruct (F k x H); auto. Qed.

Lemma frame_delete V k s : frame V s (with_kv (delete k) s).
Proof.
  split; [done|]. intros k' x. unfold val_at. cbn.
  destruct (decide (k = k')) as [->|]; [by rewrite lookup_delete_eq|].
  rewrite lookup_delete_ne by done. auto.
Qed.

Lemma frame_insert (V : string → rvalue → Prop) k e s :
  V k (e_val e) → frame V s (with_kv (insert k e) s).
Proof.
  intros HV. split; [done|]. intros k' x. unfold val_at. cbn.
  destruct (decide (k = k')) as [->|].
  - rewrite lookup_insert_eq. intros [= <-]. auto.
  - rewrite lookup_insert_ne by done. auto.
Qed.

(** Changing only the deadline of a key writes nothing. *)
Lemma frame_touch V k e s :
  kv s !! k = Some e → ∀ ex, frame V s (with_kv (insert k (Entry (e_val e) ex)) s).
Proof.
  intros He ex. split; [done|]. intros k' x. unfold val_at. cbn.
  destruct (decide (k = k')) as [->|].
  - rewrite lookup_insert_eq, He. auto.
  - rewrite lookup_insert_ne by done. auto.
Qed.

Lemma framed_ret {A} V (a : A) : framed V (ret a).
Proof. intros s. apply frame_refl. Qed.

Lemma framed_throw {A} V e : framed V (@throw A e).
Proof. intros s. apply frame_refl. Qed.

Lemma framed_bind {A B} V (c : script A) (k : A → script B) :
  framed V c → (∀ a, framed V (k a)) → framed V (bind c k).
Proof.
  intros Hc Hk s. unfold bind. specialize (Hc s).
  destruct (c s) as [a s1|e s1]; cbn in *; [|done].
  eapply frame_trans; [exact Hc|apply Hk].
Qed.

Lemma framed_mono {A} (V V' : string → rvalue → Prop) (c : script A) :
  (∀ k x, V k x → V' k x) → framed V c → framed V' c.
Proof. intros HV Hc s. eapply frame_mono; [exact HV|apply Hc]. Qed.

Lemma framed_lua_str V w o : framed V (lua_str w o).
Proof. destruct o; [apply framed_ret|apply framed_throw]. Qed.

Lemma framed_GET V k : framed V (GET k).
Proof. intros s. unfold GET. destruct (kv s !! k) as [[[] ?]|]; apply frame_refl. Qed.

Lemma framed_HGETALL V k : framed V (HGETALL k).
Proof. intros s. unfold HGETALL. destruct (kv s !! k) as [[[] ?]|]; apply frame_refl. Qed.

Lemma framed_zset_at V k : framed V (zset_at k).
Proof. intros s. unfold zset_at. destruct (kv s !! k) as [[[] ?]|]; apply frame_refl. Qed.

Lemma framed_ZSCORE V k m : framed V (ZSCORE k m).
Proof. apply framed_bind; [apply framed_zset_at|intros; apply framed_ret]. Qed.

Lemma framed_ZRANK V k m : framed V (ZRANK k m).
Proof. apply framed_bind; [apply framed_zset_at|intros; apply framed_ret]. Qed.

Lemma framed_DEL V k : framed V (DEL k).
Proof. intros s. apply frame_delete. Qed.

Lemma framed_EXPIRE V k t : framed V (EXPIRE k t).
Proof.
  intros s. unfold EXPIRE. destruct (kv s !! k) as [e|] eqn:E; [|apply frame_refl].
  destruct (t <=? 0); [apply frame_delete|by apply frame_touch].
Qed.

Lemma framed_SET k v c ex : framed (λ k' x, k' = k ∧ x = RStr v) (SET k v c ex).
Proof.
  intros s. unfold SET. destruct (ex <=? 0); [apply frame_refl|].
  destruct c, (kv s !! k); cbn [final];
    first [apply frame_refl | by apply frame_insert].
Qed.

Lemma framed_HSET k fs :
  framed (λ k' x, k' = k ∧ ∃ h0, x = RHash (hset_fields fs h0)) (HSET k fs).
Proof.
  intros s. unfold HSET. destruct (kv s !! k) as [[[] ?]|]; cbn [final];
    first [apply frame_refl | apply frame_insert; cbn; eauto].
Qed.

Lemma put_zset_frame (V : string → rvalue → Prop) k z ex s :
  V k (RZset z) → frame V s (with_kv (put_zset k z ex) s).
Proof.
  intros HV. unfold put_zset. destruct (decide _);
    [apply frame_delete|by apply frame_insert].
Qed.

Lemma framed_ZADD k sc m : framed (writes_zset k) (ZADD k sc m).
Proof.
  apply framed_bind; [apply framed_zset_at|]. intros [z ex] s. cbn [final].
  apply frame_insert. unfold writes_zset; cbn; eauto.
Qed.

Lemma framed_ZPOPMIN k : framed (writes_zset k) (ZPOPMIN k).
Proof.
  apply framed_bind; [apply framed_zset_at|]. intros [z ex] s. cbn [fst snd].
  destruct (zmin z); cbn [final]; [|apply frame_refl].
  apply put_zset_frame. unfold writes_zset; eauto.
Qed.

Lemma framed_ZREM k m : framed (writes_zset k) (ZREM k m).
Proof.
  apply framed_bind; [apply framed_zset_at|]. intros [z ex] s. cbn [fst snd].
  destruct (z !! m); cbn [final]; [|apply frame_refl].
  apply put_zset_frame. unfold writes_zset; eauto.
Qed.

Lemma framed_INCR k : framed (writes_str k) (INCR k).
Proof.
  intros s. unfold INCR. destruct (kv s !! k) as [[[] ?]|]; cbn [final];
    try apply frame_refl.
  - destruct (Str.to_Z v); [|apply frame_refl].
    destruct (_ <=? _); cbn [final]; [apply frame_refl|].
    apply frame_insert. unfold writes_str; cbn; eauto.
  - apply frame_insert. unfold writes_str; cbn; eauto.
Qed.

Lemma framed_PUBLISH V ch p : framed V (PUBLISH ch p).
Proof. intros s. split; [done|]. intros k x. unfold val_at. cbn. auto. Qed.

Lemma framed_TIME V : framed V TIME_seconds.
Proof. intros s. apply frame_refl. Qed.

#[local] Set Warnings "-clear-no-such-hyp".

Ltac framed_incl :=
  let k := fresh "k" in let x := fresh "x" in let H := fresh "H" in
  intros k x H; unfold writes_str, writes_zset, no_write in *;
  cbn beta in *; naive_solver.

Ltac framed_step :=
  first
    [ apply framed_ret | apply framed_throw
    | apply framed_GET | apply framed_DEL | apply framed_EXPIRE
    | apply framed_HGETALL | apply framed_lua_str | apply framed_PUBLISH
    | apply framed_TIME | apply framed_ZSCORE | apply framed_ZRANK
    | eapply framed_mono; [|apply framed_SET]; framed_incl
    | eapply framed_mono; [|apply framed_HSET]; framed_incl
    | eapply framed_mono; [|apply framed_ZADD]; framed_incl
    | eapply framed_mono; [|apply framed_ZPOPMIN]; framed_incl
    | eapply framed_mono; [|apply framed_ZREM]; framed_incl
    | eapply framed_mono; [|apply framed_INCR]; framed_incl
    | apply framed_bind; [|intros ?]
    | match goal with
      | |- framed _ (match ?x with _ => _ end) => destruct x
      | |- framed _ (let '(_, _) := ?x in _) => destruct x
      end ].

Ltac framed_auto := repeat framed_step.

Lemma framed_acquire_or_queue kl km kq ka A ttl L at_ T R sc :
  framed (acquire_writes kl km kq ka A L at_ T R)
    (acquire_or_queue kl km kq ka A ttl L at_ T R sc).
Proof. unfold acquire_or_queue, acquire_writes. framed_auto. Qed.

Lemma framed_acquire_script kl km kq ka kc A ttl L at_ T R sc re :
  framed (acquire_writes kl km kq ka A L at_ T R)
    (acquire_script kl km kq ka kc A ttl L at_ T R sc re).
Proof.
  unfold acquire_script. cbv zeta.
  repeat first [apply framed_acquire_or_queue | framed_step].
Qed.

Lemma framed_handoff_loop n kq T R : framed (loop_writes kq) (handoff_loop n kq T R).
Proof.
  induction n as [|n IH]; cbn [handoff_loop]; unfold loop_writes in *;
    framed_auto. exact IH.
Qed.

Lemma framed_grant_next km kl kq koa T R ttl N L' :
  framed (grant_writes kl T R N L') (grant_next km kl kq koa T R ttl N L').
Proof. unfold grant_next, grant_writes. framed_auto. Qed.

Lemma framed_cancel_script kq ka kc A :
  framed (cancel_writes kq kc) (cancel_script kq ka kc A).
Proof. unfold cancel_script, cancel_writes. framed_auto. Qed.

Lemma framed_extend_script km a t T R : framed no_write (extend_script km a t T R).
Proof. unfold extend_script. framed_auto. Qed.

Lemma framed_check_lock_status L : framed no_write (check_lock_status L).
Proof. unfold check_lock_status, status_of_meta. framed_auto. Qed.

(** ** Reentrant acquire *)

(** C3 as stated fails: agent_a holds the lock and has a pending cancel
    flag (set by its own cancel while it was the holder); its reentrant
    acquire answers [cancelled], not [already_owned]. *)
Lemma reentrant_acquire_counterexample :
  holder (lock_key "customer" "123") Scenario.held_cancelled = Some "agent_a" ∧
  ∃ s', acquire_lock 300 2 Scenario.t0 "customer" "123" "agent_a" 5 None true
          Scenario.held_cancelled
        = Ok (AcqCancelled "Lock request was cancelled") s'.
Proof. split; [vm_compute; reflexivity|]. eexists. vm_compute. reflexivity. Qed.

(** The other way out of the reentrant branch: the caller holds the lock but
    its agent mapping is gone (here: deleted by its own cancel while it was
    also in the queue), so the script falls through to the conditional create
    and the holder is queued behind itself with a fresh lock id. *)
Lemma reentrant_acquire_without_mapping :
  let s := run 300 [Acquire 2 Scenario.t0 "customer" "123" "agent_b" 5 None false;
                    Tick 301000;
                    Acquire 3 Scenario.t0 "customer" "123" "agent_b" 5 None false;
                    Cancel "customer" "123" "agent_b"] Scenario.held in
  holder (lock_key "customer" "123") s = Some "agent_b" ∧
  kv s !! cancel_key "customer" "123" "agent_b" = None ∧
  ∃ s', acquire_lock 300 4 Scenario.t0 "customer" "123" "agent_b" 5 (Some 10) true s
        = Ok (Queued (Scenario.lid 4) 1) s'.
Proof.
  cbv zeta. split; [vm_compute; reflexivity|]. split; [vm_compute; reflexivity|].
  eexists. vm_compute. reflexivity.
Qed.

(** A pending cancel flag is consumed before anything else: the acquire
    answers [cancelled] and only deletes the flag. *)
Lemma acquire_consumes_flag d rnd host_now T R A p ttl re s v ex :
  kv s !! cancel_key T R A = Some (Entry (RStr v) ex) →
  acquire_lock d rnd host_now T R A p ttl re s
  = Ok (AcqCancelled "Lock request was cancelled")
       (with_kv (delete (cancel_key T R A)) s).
Proof.
  intros Hc. unfold acquire_lock, acquire_script, bind, GET, DEL. by rewrite Hc.
Qed.

(** C3, amended (reentrancy).  When the caller is the value of the lock key,
    has no pending cancel flag and has its agent mapping, a reentrant acquire
    with a positive ttl answers [already_owned] with the lock id stored in
    the mapping (no fresh id, no queueing), leaves holder and mapping as they
    were, and sets the deadline of the lock key, of the mapping and of the
    metadata of that lock id (when it exists) to now + ttl. *)
Theorem reentrant_acquire_refreshes d rnd host_now T R A p ttl s L :
  holder (lock_key T R) s = Some A →
  kv s !! cancel_key T R A = None →
  holder (agent_lock_key T R A) s = Some L →
  0 < effective_ttl d ttl →
  ∃ s', acquire_lock d rnd host_now T R A p ttl true s
          = Ok (AlreadyOwned L (effective_ttl d ttl)) s'
    ∧ holder (lock_key T R) s' = Some A
    ∧ holder (agent_lock_key T R A) s' = Some L
    ∧ deadline (lock_key T R) s' = Some (now_ms s + 1000 * effective_ttl d ttl)
    ∧ deadline (agent_lock_key T R A) s' = Some (now_ms s + 1000 * effective_ttl d ttl)
    ∧ (is_Some (kv s !! meta_key L) →
         val_at (meta_key L) s' = val_at (meta_key L) s ∧
         deadline (meta_key L) s' = Some (now_ms s + 1000 * effective_ttl d ttl)).
Proof.
  intros Hl Hc Ha Ht.
  unfold holder in Hl, Ha.
  destruct (kv s !! lock_key T R) as [[[] el]|] eqn:El; try done.
  destruct (kv s !! agent_lock_key T R A) as [[[] ea]|] eqn:Ea; try done.
  simplify_eq.
  unfold acquire_lock, acquire_script, bind, GET, ret.
  rewrite Hc, El. destruct (decide _); [|done].
  rewrite Ea. unfold EXPIRE. rewrite El.
  destruct (Z.leb_spec (effective_ttl d ttl) 0) as [|_]; [lia|].
  kv_simpl.
  destruct (kv s !! meta_key L) as [em|] eqn:Em; kv_simpl; rewrite Ea; kv_simpl;
    (eexists; split; [reflexivity|]);
    unfold holder, deadline, val_at; kv_simpl; repeat split; try done;
    rewrite ?Em; try done.
  all: by intros [? [=]].
Qed.

Lemma reentrant_acquire_refreshes_witness :
  ∃ s', acquire_lock 300 2 Scenario.t0 "customer" "123" "agent_a" 5 (Some 60) true
          Scenario.held
          = Ok (AlreadyOwned (Scenario.lid 1) 60) s'
    ∧ holder (lock_key "customer" "123") s' = Some "agent_a"
    ∧ holder (agent_lock_key "customer" "123" "agent_a") s' = Some (Scenario.lid 1)
    ∧ deadline (lock_key "customer" "123") s' = Some 60000
    ∧ deadline (agent_lock_key "customer" "123" "agent_a") s' = Some 60000
    ∧ (is_Some (kv Scenario.held !! meta_key (Scenario.lid 1)) →
         val_at (meta_key (Scenario.lid 1)) s'
           = val_at (meta_key (Scenario.lid 1)) Scenario.held ∧
         deadline (meta_key (Scenario.lid 1)) s' = Some 60000).
Proof.
  apply (reentrant_acquire_refreshes 300 2 Scenario.t0 "customer" "123" "agent_a" 5
           (Some 60) Scenario.held (Scenario.lid 1)).
  - vm_compute. reflexivity.
  - vm_compute. reflexivity.
  - vm_compute. reflexivity.
  - vm_compute. reflexivity.
Defined.

(** ** Cancel *)

(** C4 as stated fails on the detail text: for an agent that is not queued
    the engine reports [not_in_queue_flag_set], not [flag_set]. *)
Lemma cancel_detail_counterexample :
  queue_of (queue_key "customer" "123") empty_store = Some ∅ ∧
  ∃ s', cancel_lock_request "customer" "123" "agent_a" empty_store
        = Ok (CancelResult "cancelled" "not_in_queue_flag_set") s' ∧
        "not_in_queue_flag_set" ≠ "flag_set".
Proof. split; [reflexivity|]. eexists. split; [vm_compute; reflexivity|done]. Qed.

Lemma queue_of_put_zset k z ex s :
  queue_of k (with_kv (put_zset k z ex) s) = Some z.
Proof.
  unfold queue_of, put_zset. cbn. destruct (decide (z = ∅)) as [->|].
  - by rewrite lookup_delete_eq.
  - by rewrite lookup_insert_eq.
Qed.

Lemma lookup_put_zset_ne k k' z ex (m : gmap string entry) :
  k ≠ k' → put_zset k z ex m !! k' = m !! k'.
Proof.
  intros. unfold put_zset. destruct (decide _);
    [by rewrite lookup_delete_ne|by rewrite lookup_insert_ne].
Qed.

(** One cancel on a store whose queue key is absent or a sorted set. *)
Lemma cancel_once T R A s q :
  queue_of (queue_key T R) s = Some q →
  ∃ s' detail,
    cancel_lock_request T R A s = Ok (CancelResult "cancelled" detail) s' ∧
    queue_of (queue_key T R) s' = Some (delete A q) ∧
    match q !! A with
    | Some _ =>
        detail = "removed_from_queue" ∧
        kv s' !! agent_lock_key T R A = None ∧
        kv s' !! cancel_key T R A = kv s !! cancel_key T R A
    | None =>
        detail = "not_in_queue_flag_set" ∧
        kv s' !! cancel_key T R A
          = Some (Entry (RStr "1") (Some (now_ms s + 1000 * 60))) ∧
        kv s' !! agent_lock_key T R A = kv s !! agent_lock_key T R A
    end.
Proof.
  intros Hq. unfold cancel_lock_request, cancel_script, ZREM, bind, zset_at.
  unfold queue_of in Hq.
  destruct (kv s !! queue_key T R) as [[[] ex]|] eqn:Ek; simplify_eq; cbn [fst snd].
  - destruct (q !! A) as [sc|] eqn:EA; cbn.
    + eexists _, _. split; [reflexivity|].
      split; [|split; [done|]].
      * unfold queue_of. cbn. rewrite lookup_delete_ne by key_neq.
        fold (queue_of (queue_key T R) (with_kv (put_zset (queue_key T R) (delete A q) ex) s)).
        apply queue_of_put_zset.
      * cbn. rewrite lookup_delete_eq. split; [done|].
        rewrite lookup_delete_ne by key_neq.
        by rewrite lookup_put_zset_ne by key_neq.
    + eexists _, _. split; [reflexivity|].
      split; [|split; [done|]].
      * unfold queue_of. cbn. rewrite lookup_insert_ne by key_neq.
        rewrite Ek. by rewrite delete_id.
      * cbn. rewrite lookup_insert_eq. split; [done|].
        by rewrite lookup_insert_ne by key_neq.
  - rewrite lookup_empty. cbn.
    eexists _, _. split; [reflexivity|].
    split; [|split; [done|]].
    + unfold queue_of. cbn. rewrite lookup_insert_ne by key_neq.
      rewrite Ek. by rewrite delete_empty.
    + cbn. rewrite lookup_insert_eq. split; [done|].
      by rewrite lookup_insert_ne by key_neq.
Qed.

(** C4, amended (cancel behaviour and idempotence).  On a store whose queue
    key is absent or holds a sorted set, cancel always answers [cancelled]:
    a queued agent is removed from the queue and its agent mapping deleted,
    with detail [removed_from_queue]; otherwise the cancel flag is written as
    "1" with a deadline 60 seconds ahead, with detail
    [not_in_queue_flag_set]; and a repeated call answers [cancelled] again. *)
Theorem cancel_behaviour T R A s q :
  queue_of (queue_key T R) s = Some q →
  ∃ s' detail,
    cancel_lock_request T R A s = Ok (CancelResult "cancelled" detail) s' ∧
    queue_of (queue_key T R) s' = Some (delete A q) ∧
    match q !! A with
    | Some _ =>
        detail = "removed_from_queue" ∧
        kv s' !! agent_lock_key T R A = None ∧
        kv s' !! cancel_key T R A = kv s !! cancel_key T R A
    | None =>
        detail = "not_in_queue_flag_set" ∧
        kv s' !! cancel_key T R A
          = Some (Entry (RStr "1") (Some (now_ms s + 1000 * 60))) ∧
        kv s' !! agent_lock_key T R A = kv s !! agent_lock_key T R A
    end ∧
    ∃ s'', cancel_lock_request T R A s'
           = Ok (CancelResult "cancelled" "not_in_queue_flag_set") s''.
Proof.
  intros Hq.
  destruct (cancel_once T R A s q Hq) as (s' & detail & Hr & Hq' & Hcase).
  exists s', detail. repeat split; try done.
  destruct (cancel_once T R A s' _ Hq') as (s'' & detail' & Hr' & _ & Hcase').
  rewrite lookup_delete_eq in Hcase'. destruct Hcase' as [-> _]. eauto.
Qed.

Lemma cancel_behaviour_witness :
  ∃ s' detail,
    cancel_lock_request "customer" "123" "agent_b" Scenario.queued
      = Ok (CancelResult "cancelled" detail) s' ∧
    queue_of (queue_key "customer" "123") s'
      = Some (delete "agent_b" ({["agent_b" := -3; "agent_c" := -10]} : gmap string Z)) ∧
    match ({["agent_b" := -3; "agent_c" := -10]} : gmap string Z) !! "agent_b" with
    | Some _ =>
        detail = "removed_from_queue" ∧
        kv s' !! agent_lock_key "customer" "123" "agent_b" = None ∧
        kv s' !! cancel_key "customer" "123" "agent_b"
          = kv Scenario.queued !! cancel_key "customer" "123" "agent_b"
    | None =>
        detail = "not_in_queue_flag_set" ∧
        kv s' !! cancel_key "customer" "123" "agent_b"
          = Some (Entry (RStr "1") (Some (now_ms Scenario.queued + 1000 * 60))) ∧
        kv s' !! agent_lock_key "customer" "123" "agent_b"
          = kv Scenario.queued !! agent_lock_key "customer" "123" "agent_b"
    end ∧
    ∃ s'', cancel_lock_request "customer" "123" "agent_b" s'
           = Ok (CancelResult "cancelled" "not_in_queue_flag_set") s''.
Proof.
  apply (cancel_behaviour "customer" "123" "agent_b" Scenario.queued).
  vm_compute. reflexivity.
Defined.

(** ** Status *)

Lemma status_no_meta L s :
  kv s !! meta_key L = None → check_lock_status L s = Ok Expired s.
Proof.
  intros H. unfold check_lock_status, bind, HGETALL. rewrite H.
  by destruct (decide _).
Qed.

Lemma status_lock_gone L s h ex k_lock :
  kv s !! meta_key L = Some (Entry (RHash h) ex) →
  h !! "lock_key" = Some k_lock → k_lock ≠ "" →
  kv s !! k_lock = None →
  check_lock_status L s = Ok Expired s.
Proof.
  intros Hm Hk Hne Hl. unfold check_lock_status, bind, HGETALL. rewrite Hm.
  destruct (decide (h = ∅)) as [->|]; [done|].
  unfold status_of_meta, bind, GET. rewrite Hk.
  destruct (decide _); [done|]. by rewrite Hl.
Qed.

(** What [check_lock_status] does when the lock key holds a non-empty agent
    id: it answers [active] with the metadata fields, and never compares the
    holder with the agent id of the metadata. *)
Lemma status_lock_present L s h ex k_lock o :
  kv s !! meta_key L = Some (Entry (RHash h) ex) →
  h !! "lock_key" = Some k_lock → k_lock ≠ "" →
  holder k_lock s = Some o → o ≠ "" →
  check_lock_status L s
  = Ok (Active (h !! "agent_id") (h !! "acquired_at")
               (h !! "resource_type") (h !! "resource_id")) s.
Proof.
  intros Hm Hk Hne Hl Ho. unfold check_lock_status, bind, HGETALL. rewrite Hm.
  destruct (decide (h = ∅)) as [->|]; [by rewrite lookup_empty in Hk|].
  unfold status_of_meta, bind, GET. rewrite Hk.
  destruct (decide _); [done|]. unfold holder in Hl.
  destruct (kv s !! k_lock) as [[[] ?]|]; try done. injection Hl as ->.
  by destruct (decide _).
Qed.

(** C5, the code at a failing input.  In the store [Scenario.stale_meta]
    (reached from the empty store by engine calls and the passing of time)
    the metadata of lock id [lid 3] names agent_b while the lock key it
    refers to holds agent_c; [check_lock_status] answers [active] for
    agent_b, where the claim, like the release and extend scripts, says the
    lock is gone. *)
Lemma status_stale_lock_reported_active :
  meta_field (Scenario.lid 3) "agent_id" Scenario.stale_meta = Some "agent_b" ∧
  meta_field (Scenario.lid 3) "lock_key" Scenario.stale_meta = Some "lock:customer:123" ∧
  holder "lock:customer:123" Scenario.stale_meta = Some "agent_c" ∧
  check_lock_status (Scenario.lid 3) Scenario.stale_meta
  = Ok (Active (Some "agent_b") (Some "2024-01-02T03:04:05")
               (Some "customer") (Some "123")) Scenario.stale_meta ∧
  (∃ m, release_lock 300 (Scenario.lid 3) None false Scenario.stale_meta
        = Ok (RelError m) Scenario.stale_meta) ∧
  (∃ m, extend_lock (Scenario.lid 3) 60 None Scenario.stale_meta
        = Ok (ExtError m) Scenario.stale_meta).
Proof.
  repeat split; try (vm_compute; reflexivity);
    eexists; vm_compute; reflexivity.
Qed.

(** ** The facade *)













(** ** The grant block and the clock *)

Lemma grant_next_Ok km kl kq koa T R ttl N L' s1 r s' :
  grant_next km kl kq koa T R ttl N L' s1 = Ok r s' →
  r = (1, N, L') ∧ 0 < ttl ∧ now_ms s' = now_ms s1 ∧
  is_Some (delete koa (delete km (kv s1)) !! kl) ∧ kl ≠ meta_key L' ∧
  published s' = (published s1 ++ [(grant_channel kl, (N ++ ":" ++ L')%string)])%list ∧
  ∃ h0,
    kv s' = <[agent_lock_key T R N := Entry (RStr L') (Some (now_ms s1 + 1000 * ttl))]>
           (<[meta_key L' :=
                Entry (RHash (hset_fields
                  (meta_fields kl N L' (Str.of_Z (now_ms s1 / 1000)) T R) h0))
                  (Some (now_ms s1 + 1000 * ttl))]>
           (<[kl := Entry (RStr N) (Some (now_ms s1 + 1000 * ttl))]>
              (delete koa (delete km (kv s1))))).
Proof.
  unfold grant_next. intros H.
  apply bind_Ok in H as (? & s2 & ->%DEL_Ok & H).
  apply bind_Ok in H as (? & s3 & ->%DEL_Ok & H).
  apply bind_Ok in H as (b & s4 & Hset & H).
  apply bind_Ok in H as (verify & s5 & (-> & Hv & _)%GET_Ok & H).
  destruct (decide _) as [->|]; [|script_done H].
  assert (0 < ttl ∧ is_Some (delete koa (delete km (kv s1)) !! kl) ∧
          s4 = with_kv (insert kl (Entry (RStr N) (Some (now_ms s1 + 1000 * ttl))))
                 (with_kv (delete koa) (with_kv (delete km) s1))) as (Httl & Hex & ->).
  { revert Hset Hv. unfold SET, holder. destruct (Z.leb_spec ttl 0); [done|].
    cbn [kv with_kv now_ms].
    destruct (delete koa (delete km (kv s1)) !! kl) as [e|] eqn:E.
    - intros [= <- <-]. eauto.
    - intros [= <- <-]. cbn [kv with_kv]. by rewrite E. }
  apply bind_Ok in H as (at_ & s6 & Ht & H). injection Ht as <- <-.
  apply bind_Ok in H as (? & s7 & (h0 & ex0 & Hh0 & ->)%HSET_Ok & H).
  assert (kl ≠ meta_key L') as Hne.
  { intros ->. revert Hh0. kv_simpl. naive_solver. }
  apply bind_Ok in H as (n & s8 & Hexp & H).
  apply EXPIRE_Ok in Hexp as [(_ & Hnone & _)|[(_ & ? & _)|(_ & _ & e & He & ->)]];
    [revert Hnone; kv_simpl; done|lia|].
  revert He. kv_simpl. intros [= <-]. cbn [e_val] in H.
  apply bind_Ok in H as (b' & s9 & (_ & -> & ->)%SET_Always_Ok & H).
  apply bind_Ok in H as (? & s10 & Hp & H). injection Hp as <-.
  script_done H. repeat split; try done.
  exists h0. kv_simpl. by rewrite insert_insert_eq.
Qed.

Lemma handoff_loop_now n kq T R s r s1 :
  handoff_loop n kq T R s = Ok r s1 → now_ms s1 = now_ms s.
Proof.
  intros H. pose proof (framed_handoff_loop n kq T R s) as [Hn _].
  by rewrite H in Hn.
Qed.

(** ** The acquired_at field *)

Lemma chars_app (a b : string) : Str.chars (a ++ b) = (Str.chars a ++ Str.chars b)%list.
Proof. induction a; rewrite ?app_String, ?app_Empty; cbn; congruence. Qed.

Lemma uint_chars_digits d :
  Forall (λ c, Str.is_digit c = true) (Str.chars (NilEmpty.string_of_uint d)).
Proof. induction d; cbn; constructor; done. Qed.

(** The decimal text of an integer has digits and at most a sign. *)
Lemma of_Z_chars z :
  Forall (λ c, Str.is_digit c = true ∨ c = "-"%char) (Str.chars (Str.of_Z z)).
Proof.
  unfold Str.of_Z. destruct (Z.to_int z) as [d|d]; cbn.
  - assert (Forall (λ c, Str.is_digit c = true ∨ c = "-"%char)
              (Str.chars (NilEmpty.string_of_uint d))) as H
      by (eapply Forall_impl; [apply uint_chars_digits|auto]).
    destruct d; try done. repeat constructor; auto.
  - constructor; [auto|].
    assert (Forall (λ c, Str.is_digit c = true ∨ c = "-"%char)
              (Str.chars (NilEmpty.string_of_uint d))) as H
      by (eapply Forall_impl; [apply uint_chars_digits|auto]).
    destruct d; try done. repeat constructor; auto.
Qed.

Lemma isoformat_has_T d : "T"%char ∈ Str.chars (Host.isoformat d).
Proof.
  unfold Host.isoformat. rewrite !chars_app. rewrite !elem_of_app.
  do 5 right. left. cbn. left.
Qed.

(** An ISO timestamp is never the decimal text of a number of seconds. *)
Lemma isoformat_not_decimal d z : Host.isoformat d ≠ Str.of_Z z.
Proof.
  intros H. pose proof (isoformat_has_T d) as HT. rewrite H in HT.
  pose proof (of_Z_chars z) as HF. rewrite Forall_forall in HF.
  destruct (HF _ HT) as [Hd|Hd]; [by vm_compute in Hd|done].
Qed.

Lemma status_active_fields L s a t rt rid s' :
  check_lock_status L s = Ok (Active a t rt rid) s' →
  s' = s ∧ a = meta_field L "agent_id" s ∧ t = meta_field L "acquired_at" s ∧
  rt = meta_field L "resource_type" s ∧ rid = meta_field L "resource_id" s.
Proof.
  unfold check_lock_status. intros (h & s1 & [-> Hh]%HGETALL_Ok & H)%bind_Ok.
  destruct (decide (h = ∅)); [script_done H|].
  destruct Hh as [[-> _]|[ex Hm]]; [done|].
  unfold meta_field, meta_of. rewrite Hm.
  unfold status_of_meta in H.
  destruct (h !! "lock_key") as [kl|]; [|script_done H; done].
  destruct (decide _); [script_done H; done|].
  apply bind_Ok in H as ([o|] & s1 & (-> & _)%GET_Ok & H); [|script_done H].
  destruct (decide _); script_done H. done.
Qed.

(** C10 (two timestamp formats in one field).  An acquire that answers
    [acquired] stores the ISO-8601 text of the host clock as [acquired_at];
    a release that hands the lock over stores the store clock in unix
    seconds, as decimal text, in the successor's metadata; status returns
    the stored field as it is; and the two texts are never equal. *)
Theorem acquired_at_formats d rnd host_now T R A p ttl re s1 L e s1'
    d' L0 a idem s2 N L' s2' Ls s3 ag t rt rid s3' z :
  acquire_lock d rnd host_now T R A p ttl re s1 = Ok (Acquired L e) s1' →
  release_lock d' L0 a idem s2 = Ok (Released (Some (N, L'))) s2' →
  check_lock_status Ls s3 = Ok (Active ag t rt rid) s3' →
  meta_field L "acquired_at" s1' = Some (Host.isoformat host_now) ∧
  meta_field L' "acquired_at" s2' = Some (Str.of_Z (now_ms s2 / 1000)) ∧
  t = meta_field Ls "acquired_at" s3 ∧
  Host.isoformat host_now ≠ Str.of_Z z.
Proof.
  intros Hacq Hrel Hst. repeat split.
  - apply acquire_lock_acquired in Hacq as (-> & _ & _ & _ & _ & _ & h0 & Hkv).
    unfold meta_field, meta_of. rewrite Hkv. kv_simpl.
    apply meta_fields_lookup.
  - apply release_lock_handoff, release_script_handoff in Hrel
      as (h & ex & kl & T' & R' & A' & s & _ & _ & _ & _ & _ & _ & _ & Hloop & Hg).
    apply handoff_loop_now in Hloop.
    apply grant_next_Ok in Hg as (_ & _ & _ & _ & _ & _ & h0 & Hkv).
    unfold meta_field, meta_of. rewrite Hkv. kv_simpl. rewrite Hloop.
    apply meta_fields_lookup.
  - by apply status_active_fields in Hst as (_ & _ & -> & _).
  - apply isoformat_not_decimal.
Qed.

Lemma acquired_at_formats_witness :
  ∃ s2',
    release_lock 300 (Scenario.lid 1) None true Scenario.queued
      = Ok (Released (Some ("agent_c", Scenario.lid 3))) s2' ∧
    meta_field (Scenario.lid 1) "acquired_at" Scenario.held = Some "2024-01-02T03:04:05" ∧
    meta_field (Scenario.lid 3) "acquired_at" s2' = Some "0" ∧
    Some "2024-01-02T03:04:05" = meta_field (Scenario.lid 1) "acquired_at" Scenario.held ∧
    "2024-01-02T03:04:05" ≠ "0".
Proof.
  eexists. split; [vm_compute; reflexivity|].
  eapply (acquired_at_formats 300 1 Scenario.t0 "customer" "123" "agent_a" 5 None false
            empty_store (Scenario.lid 1) 300 Scenario.held
            300 (Scenario.lid 1) None true Scenario.queued "agent_c" (Scenario.lid 3) _
            (Scenario.lid 1) Scenario.held (Some "agent_a") _ _ _ _ 0).
  - vm_compute. reflexivity.
  - vm_compute. reflexivity.
  - vm_compute. reflexivity.
Defined.

(** ** Lock ids *)






Lemma framed_run {A} V (c : script A) s a s' :
  framed V c → c s = Ok a s' → frame V s s'.
Proof. intros Hc H. specialize (Hc s). by rewrite H in Hc. Qed.







(** ** The re-queue branch of release *)

(** Whenever the grant block finds the lock key gone, the script aborts on
    the out-of-scope [next_in_queue]: the old metadata and the old owner's
    mapping are already deleted and the popped agent is not put back. *)
Lemma grant_next_lock_gone km kl kq koa T R ttl N L' s1 :
  0 < ttl → delete koa (delete km (kv s1)) !! kl = None →
  grant_next km kl kq koa T R ttl N L' s1
  = Fail (LuaError "Script attempted to access nonexistent global variable 'next_in_queue'")
      (with_kv (delete koa) (with_kv (delete km) s1)).
Proof.
  intros Httl Hgone. unfold grant_next, bind, DEL, SET, GET.
  destruct (Z.leb_spec ttl 0); [lia|]. cbn [kv with_kv].
  rewrite Hgone. cbn [kv with_kv]. rewrite Hgone.
  by destruct (decide _).
Qed.

(** ** Mutual exclusion *)

Lemma present_true k s : present k s = true ↔ is_Some (kv s !! k).
Proof.
  unfold present. destruct (kv s !! k); split; intros H; try done; eauto.
Qed.

Lemma holder_present k s v : holder k s = Some v → present k s = true.
Proof. unfold holder, present. by destruct (kv s !! k). Qed.

(** An [acquired] answer is given only when the lock key was absent, and it
    leaves the key present. *)
Lemma acquire_grant_presence d rnd host_now T R A p ttl re s L e s' :
  acquire_lock d rnd host_now T R A p ttl re s = Ok (Acquired L e) s' →
  present (lock_key T R) s = false ∧ present (lock_key T R) s' = true.
Proof.
  intros (_ & _ & _ & _ & Hl & _ & h0 & Hkv)%acquire_lock_acquired.
  unfold present. rewrite Hl, Hkv. by kv_simpl.
Qed.

(** A handoff replaces the value of a lock key that is present. *)
Lemma release_grant_presence d L a idem s N L' s' k :
  release_lock d L a idem s = Ok (Released (Some (N, L'))) s' →
  meta_lock_key L s = Some k →
  present k s = true ∧ present k s' = true.
Proof.
  intros Hrel Hk.
  apply release_lock_handoff, release_script_handoff in Hrel
    as (h & ex & kl & T & R & A & s1 & Hm & Hkl & _ & _ & _ & _ & Hh & _ & Hg).
  unfold meta_lock_key, meta_field, meta_of in Hk. rewrite Hm, Hkl in Hk.
  injection Hk as ->.
  split; [by eapply holder_present|].
  apply grant_next_Ok in Hg as (_ & _ & _ & _ & Hne & _ & h0 & Hkv).
  apply present_true. rewrite Hkv.
  destruct (decide (agent_lock_key T R N = k)) as [<-|];
    [rewrite lookup_insert_eq; eauto|rewrite lookup_insert_ne by done].
  rewrite lookup_insert_ne by done. rewrite lookup_insert_eq. eauto.
Qed.

Lemma grants_presence d k o s :
  grants d k o s = true →
  present k (exec d o s) = true ∧
  match o with
  | Release _ _ _ => present k s = true
  | _ => present k s = false
  end.
Proof.
  destruct o; cbn [grants exec]; try done.
  - destruct (acquire_lock _ _ _ _ _ _ _ _ _ _) as [[]|] eqn:E; try done.
    intros <-%bool_decide_eq_true. cbn [final].
    apply acquire_grant_presence in E as [? ?]. done.
  - destruct (release_lock _ _ _ _ _) as [[|[[N L']|]]|] eqn:E; try done.
    intros Hk%bool_decide_eq_true. cbn [final].
    by destruct (release_grant_presence _ _ _ _ _ _ _ _ _ E Hk).
Qed.

(** ** The cancel-flag invariant *)

Lemma final_bind_pure {A B} (c : script A) (k : A → script B) s :
  (∀ a s1, final (k a s1) = s1) → final (bind c k s) = final (c s).
Proof. intros Hk. unfold bind. destruct (c s); [apply Hk|done]. Qed.

Lemma final_acquire_lock d rnd host_now T R A p ttl re s :
  final (acquire_lock d rnd host_now T R A p ttl re s)
  = final (acquire_script (lock_key T R) (meta_key (Host.uuid_str (Host.uuid4 rnd)))
      (queue_key T R) (agent_lock_key T R A) (cancel_key T R A) A
      (effective_ttl d ttl) (Host.uuid_str (Host.uuid4 rnd))
      (Host.isoformat host_now) T R (- p) re s).
Proof.
  unfold acquire_lock. apply final_bind_pure. by intros [c [v|] x] s1.
Qed.

Lemma final_release_lock d L a idem s :
  final (release_lock d L a idem s)
  = final (release_script (meta_key L) (default "" a) d idem s).
Proof.
  unfold release_lock. apply final_bind_pure. intros [[c r1] r2] s1.
  destruct (c <? 0); [done|]. by destruct (c =? 1).
Qed.

Lemma final_cancel_lock_request T R A s :
  final (cancel_lock_request T R A s)
  = final (cancel_script (queue_key T R) (agent_lock_key T R A) (cancel_key T R A) A s).
Proof. unfold cancel_lock_request. by apply final_bind_pure. Qed.

Lemma framed_extend_lock L t a : framed no_write (extend_lock L t a).
Proof.
  unfold extend_lock.
  repeat first [apply framed_extend_script | framed_step].
Qed.

Lemma framed_for_each V ks (body : string → script unit) :
  (∀ k, framed V (body k)) → framed V (for_each ks body).
Proof.
  intros Hb. induction ks as [|k ks IH]; cbn [for_each]; [apply framed_ret|].
  apply framed_bind; [apply Hb|]. intros _. exact IH.
Qed.

Lemma framed_cleanup_metas ks n : framed no_write (cleanup_metas ks n).
Proof.
  revert n. induction ks as [|k ks IH]; intros n; cbn [cleanup_metas];
    [apply framed_ret|].
  repeat first [apply IH | framed_step].
Qed.

Lemma framed_cleanup : framed no_write cleanup_all_locks.
Proof.
  unfold cleanup_all_locks, cleanup_script.
  repeat first
    [ apply framed_cleanup_metas
    | apply framed_for_each; intros ?
    | apply framed_bind; [intros ?; apply frame_refl|intros ?]
    | framed_step ].
Qed.

(** Time only takes keys away. *)
Lemma tick_val_at dt k s x : val_at k (tick dt s) = Some x → val_at k s = Some x.
Proof.
  unfold val_at, tick. cbn [kv].
  destruct (filter _ (kv s) !! k) as [e|] eqn:E; [|done].
  apply map_lookup_filter_Some in E as [-> _]. done.
Qed.

(** A key that is absent and that the frame does not write stays absent. *)
Lemma frame_absent V s s' k :
  frame V s s' → kv s !! k = None → (∀ x, ¬ V k x) → kv s' !! k = None.
Proof.
  intros [_ F] Hk HV. apply val_at_None.
  destruct (val_at k s') as [x|] eqn:E; [|done].
  destruct (F _ _ E) as [H|H]; [|by apply HV in H].
  apply val_at_None in Hk. congruence.
Qed.

Lemma is_Some_val_at k s : is_Some (kv s !! k) ↔ is_Some (val_at k s).
Proof. unfold val_at. destruct (kv s !! k); split; intros [? ?]; eauto; done. Qed.

(** The invariant survives a frame that writes no flag naming a holder and
    no holder named by a flag. *)
Lemma cancel_inv_frame V s s' :
  cancel_inv s → frame V s s' →
  (∀ T R A x, V (cancel_key T R A) x → holder (lock_key T R) s' ≠ Some A) →
  (∀ T R A, V (lock_key T R) (RStr A) → kv s' !! cancel_key T R A = None) →
  cancel_inv s'.
Proof.
  intros Hinv [_ F] Hflag Hlock T R A [x Hx]%is_Some_val_at Hh.
  destruct (F _ _ Hx) as [Hold|Hnew]; [|by eapply Hflag].
  pose proof Hh as Hh'. apply holder_val_at in Hh'.
  destruct (F _ _ Hh') as [Hold'|Hnew'].
  - apply (Hinv T R A); [|by apply holder_val_at].
    apply is_Some_val_at. eauto.
  - apply Hlock in Hnew'. apply val_at_None in Hnew'. congruence.
Qed.

Lemma cancel_inv_no_write s s' : cancel_inv s → frame no_write s s' → cancel_inv s'.
Proof. intros Hinv Hf. eapply cancel_inv_frame; eauto; done. Qed.

Lemma meta_ok_frame V s s' :
  meta_ok s → frame V s s' → (∀ k h, V k (RHash h) → hash_ok h) → meta_ok s'.
Proof.
  intros Hok [_ F] HV k h ex lk T R Hk.
  assert (val_at k s' = Some (RHash h)) as Hv by (unfold val_at; by rewrite Hk).
  destruct (F _ _ Hv) as [Hold|Hnew]; [|by apply (HV _ _ Hnew)].
  unfold val_at in Hold. destruct (kv s !! k) as [[v ex']|] eqn:E; [|done].
  injection Hold as ->. by eapply Hok.
Qed.

Lemma meta_ok_no_write s s' : meta_ok s → frame no_write s s' → meta_ok s'.
Proof. intros Hok Hf. eapply meta_ok_frame; eauto; done. Qed.

Lemma meta_fields_hash_ok T R A L at_ h0 :
  hash_ok (hset_fields (meta_fields (lock_key T R) A L at_ T R) h0).
Proof.
  intros lk T' R' H1 H2 H3.
  destruct (meta_fields_lookup (lock_key T R) A L at_ T R h0)
    as (E1 & _ & _ & _ & E2 & E3).
  cbv zeta in *. congruence.
Qed.

Lemma GET_Fail k s e s' : GET k s = Fail e s' → s' = s.
Proof. unfold GET. destruct (kv s !! k) as [[[] ?]|]; intros; simplify_eq; done. Qed.

Lemma HGETALL_Fail k s e s' : HGETALL k s = Fail e s' → s' = s.
Proof. unfold HGETALL. destruct (kv s !! k) as [[[] ?]|]; intros; simplify_eq; done. Qed.

Lemma ZREM_Ok k m s n s' :
  ZREM k m s = Ok n s' →
  (n = 0 ∧ s' = s ∧ ∀ q, queue_of k s = Some q → q !! m = None) ∨ n = 1.
Proof.
  unfold ZREM. intros ([z ex] & s1 & [-> Hz]%zset_at_Ok & H)%bind_Ok.
  cbn [fst snd] in H. destruct (z !! m) eqn:E; injection H as <- <-; [by right|].
  left. repeat split. intros q Hq. congruence.
Qed.

Lemma SET_Always_run k v ex s :
  0 < ex →
  SET k v SetAlways ex s
  = Ok true (with_kv (insert k (Entry (RStr v) (Some (now_ms s + 1000 * ex)))) s).
Proof.
  intros H. unfold SET. destruct (Z.leb_spec ex 0); [lia|].
  by destruct (kv s !! k).
Qed.

Lemma acquire_writes_no_flag T R km A L at_ x T' R' A' :
  ¬ acquire_writes (lock_key T R) (meta_key km) (queue_key T R)
      (agent_lock_key T R A) A L at_ T R (cancel_key T' R' A') x.
Proof.
  unfold acquire_writes, writes_zset.
  intros [[H _]|[[H _]|[[H _]|[H _]]]]; revert H; key_neq.
Qed.

Lemma acquire_preserves d rnd host_now T R A p ttl re s :
  meta_ok s → cancel_inv s →
  cancel_inv (final (acquire_lock d rnd host_now T R A p ttl re s)) ∧
  meta_ok (final (acquire_lock d rnd host_now T R A p ttl re s)).
Proof.
  intros Hok Hinv. rewrite final_acquire_lock. split.
  - unfold acquire_script. cbv zeta. unfold bind at 1.
    destruct (GET (cancel_key T R A) s) as [flag s0|e s0] eqn:EG;
      [|by apply GET_Fail in EG as ->].
    apply GET_Ok in EG as (-> & _ & Hnone).
    destruct flag as [f|].
    { cbn. eapply cancel_inv_no_write; [done|apply frame_delete]. }
    specialize (Hnone eq_refl).
    match goal with |- cancel_inv (final (?c s)) =>
      assert (framed (acquire_writes (lock_key T R)
                (meta_key (Host.uuid_str (Host.uuid4 rnd))) (queue_key T R)
                (agent_lock_key T R A) A (Host.uuid_str (Host.uuid4 rnd))
                (Host.isoformat host_now) T R) c) as Hc
        by (repeat first [apply framed_acquire_or_queue | framed_step]);
      specialize (Hc s); revert Hc; generalize (final (c s))
    end.
    intros s' Hf. eapply cancel_inv_frame; [done|exact Hf|..].
    + intros T' R' A' x Hw. by apply acquire_writes_no_flag in Hw.
    + intros T' R' A' Hw.
      assert (lock_key T' R' = lock_key T R ∧ A' = A) as [Hk ->].
      { destruct Hw as [[? [= ?]]|[[H _]|[[H _]|[_ [? [=]]]]]]; [done|..];
          exfalso; revert H; key_neq. }
      rewrite (cancel_key_resource T' R' A T R) by by apply lock_key_inj.
      eapply frame_absent; [exact Hf|done|].
      intros x Hw'. by apply acquire_writes_no_flag in Hw'.
  - eapply meta_ok_frame; [done|apply framed_acquire_script|].
    intros k h [[_ [=]]|[[_ [h0 [= ->]]]|[[_ [=]]|[_ [? [=]]]]]].
    apply meta_fields_hash_ok.
Qed.

Lemma cancel_preserves T R A s :
  meta_ok s → cancel_inv s →
  in_queue T R A s ∨ ¬ flag_names_holder T R A s →
  cancel_inv (final (cancel_lock_request T R A s)) ∧
  meta_ok (final (cancel_lock_request T R A s)).
Proof.
  intros Hok Hinv Hsafe. rewrite final_cancel_lock_request. split.
  - unfold cancel_script. unfold bind at 1.
    pose proof (framed_ZREM (queue_key T R) A s) as Hf.
    destruct (ZREM (queue_key T R) A s) as [n s1|e s1] eqn:EZ; cbn [final] in Hf.
    + assert (cancel_inv s1) as Hinv1.
      { eapply cancel_inv_frame; [done|exact Hf|..].
        - intros T' R' A' x [H _]. revert H. key_neq.
        - intros T' R' A' [_ [? [=]]]. }
      destruct (0 <? n) eqn:En.
      * cbn. eapply cancel_inv_no_write; [exact Hinv1|apply frame_delete].
      * apply ZREM_Ok in EZ as [(-> & -> & Hq) | ->]; [|done].
        assert (¬ flag_names_holder T R A s) as Hno.
        { destruct Hsafe as [(q & sc & Hq1 & Hq2)|]; [|done].
          rewrite (Hq _ Hq1) in Hq2. done. }
        unfold bind. rewrite SET_Always_run by done. cbn [ret final].
        eapply (cancel_inv_frame (λ k x, k = cancel_key T R A ∧ x = RStr "1"));
          [done|by apply frame_insert|..].
        -- intros T' R' A' x [Hk _] Hh. apply Hno. exists T', R', A'.
           split; [done|]. revert Hh. unfold holder. cbn [kv with_kv].
           by rewrite lookup_insert_ne by key_neq.
        -- intros T' R' A' [H _]. revert H. key_neq.
    + eapply cancel_inv_frame; [done|exact Hf|..].
      * intros T' R' A' x [H _]. revert H. key_neq.
      * intros T' R' A' [_ [? [=]]].
  - eapply meta_ok_frame; [done|apply framed_cancel_script|].
    intros k h [[_ [? [=]]]|[_ [=]]].
Qed.

Lemma tick_preserves dt s :
  meta_ok s → cancel_inv s → cancel_inv (tick dt s) ∧ meta_ok (tick dt s).
Proof.
  intros Hok Hinv. split.
  - intros T R A [x Hx]%is_Some_val_at Hh%holder_val_at.
    apply tick_val_at in Hx, Hh. apply (Hinv T R A).
    + apply is_Some_val_at. eauto.
    + by apply holder_val_at.
  - intros k h ex lk T R Hk.
    assert (val_at k (tick dt s) = Some (RHash h)) as Hv
      by (unfold val_at; by rewrite Hk).
    apply tick_val_at in Hv. unfold val_at in Hv.
    destruct (kv s !! k) as [[v ex']|] eqn:E; [|done].
    injection Hv as ->. by eapply Hok.
Qed.

(** The successor the loop returns has no cancel flag when the loop ends. *)
Lemma handoff_loop_flag n kq T R s N L' s1 :
  handoff_loop n kq T R s = Ok (Some (N, L')) s1 →
  kv s1 !! cancel_key T R N = None.
Proof.
  revert s. induction n as [|n IH]; intros s H; cbn [handoff_loop] in H;
    [script_done H|].
  apply bind_Ok in H as (popped & sa & _ & H).
  destruct popped as [[M sM]|]; [|script_done H].
  apply bind_Ok in H as (flag & ? & (-> & _ & Hnone)%GET_Ok & H).
  destruct flag.
  - apply bind_Ok in H as (? & sb & _ & H).
    apply bind_Ok in H as (? & sc & _ & H). by eapply IH.
  - specialize (Hnone eq_refl).
    apply bind_Ok in H as (l & ? & (-> & _)%GET_Ok & H).
    destruct l; [by script_done H|].
    apply bind_Ok in H as (c & sb & Hincr & H). script_done H.
    apply (framed_run _ _ _ _ _ (framed_INCR counter_key)) in Hincr.
    eapply frame_absent; [exact Hincr|done|].
    intros x [Hk _]. revert Hk. key_neq.
Qed.

Lemma engine_inv_no_write s s' : engine_inv s → frame no_write s s' → engine_inv s'.
Proof.
  intros [? ?] ?. split; [by eapply cancel_inv_no_write|by eapply meta_ok_no_write].
Qed.

Lemma engine_inv_loop x s s' :
  engine_inv s → frame (loop_writes ("queue:" ++ x)) s s' → engine_inv s'.
Proof.
  intros [Hinv Hok] Hf. split.
  - eapply cancel_inv_frame; [done|exact Hf|..].
    + intros T R A v [[H _]|[H _]]; revert H; key_neq.
    + intros T R A [[_ [? [=]]]|[H _]]. revert H. key_neq.
  - eapply meta_ok_frame; [done|exact Hf|].
    intros k h [[_ [? [=]]]|[_ [? [=]]]].
Qed.

Lemma engine_inv_grant T R N L' s s' :
  engine_inv s → kv s !! cancel_key T R N = None →
  frame (grant_writes (lock_key T R) T R N L') s s' → engine_inv s'.
Proof.
  intros [Hinv Hok] Hflag Hf.
  assert (∀ T' R' A' x, ¬ grant_writes (lock_key T R) T R N L' (cancel_key T' R' A') x)
    as Hnf.
  { intros T' R' A' x [[H _]|[[H _]|[H _]]]; revert H; key_neq. }
  split.
  - eapply cancel_inv_frame; [done|exact Hf|..].
    + intros T' R' A' x Hw. by apply Hnf in Hw.
    + intros T' R' A' Hw.
      assert (lock_key T' R' = lock_key T R ∧ A' = N) as [Hk ->].
      { destruct Hw as [[? [= ?]]|[[_ (? & ? & [=])]|[H _]]]; [done|].
        exfalso; revert H; key_neq. }
      rewrite (cancel_key_resource T' R' N T R) by by apply lock_key_inj.
      eapply frame_absent; [exact Hf|done|]. intros x. apply Hnf.
  - eapply meta_ok_frame; [done|exact Hf|].
    intros k h [[_ [=]]|[[_ (at_ & h0 & [= ->])]|[_ [=]]]].
    apply meta_fields_hash_ok.
Qed.

(** The shape of every run of release on engine-written metadata: nothing
    is written, or the owner held the lock, the handoff loop ran, and then
    nothing more was written or the grant block ran for a successor that had
    no cancel flag. *)
Lemma release_frames d L a idem s s' :
  meta_ok s → final (release_lock d L a idem s) = s' →
  frame no_write s s' ∨
  ∃ T R A x s1,
    holder (lock_key T R) s = Some A ∧
    frame (loop_writes ("queue:" ++ x)) s s1 ∧
    (frame no_write s1 s' ∨
     ∃ N L', kv s1 !! cancel_key T R N = None ∧
             frame (grant_writes (lock_key T R) T R N L') s1 s').
Proof.
  intros Hok Hs'. rewrite final_release_lock in Hs'. unfold release_script in Hs'.
  unfold bind at 1 in Hs'.
  destruct (HGETALL (meta_key L) s) as [h s0|e s0] eqn:EH;
    [|apply HGETALL_Fail in EH as ->; left; subst; apply frame_refl].
  apply HGETALL_Ok in EH as [-> Hh].
  destruct (decide (h = ∅)); [left; destruct idem; subst; apply frame_refl|].
  destruct Hh as [[-> _]|[ex Hm]]; [done|].
  destruct (h !! "lock_key") as [kl|] eqn:Ekl; [|left; subst; apply frame_refl].
  destruct (decide (_ ∧ _)); [left; subst; apply frame_refl|].
  unfold bind at 1 in Hs'.
  destruct (GET kl s) as [co s0|e s0] eqn:EG;
    [|apply GET_Fail in EG as ->; left; subst; apply frame_refl].
  apply GET_Ok in EG as (-> & Hco & _).
  destruct co as [co|].
  2:{ left. rewrite <- Hs'.
      match goal with |- frame _ _ (final (?c s)) =>
        assert (framed no_write c) as Hc by framed_auto end.
      apply Hc. }
  destruct (decide _) as [|Hown%dec_stable]; [left; subst; apply frame_refl|].
  unfold bind at 1 in Hs'.
  destruct (h !! "resource_type") as [T|] eqn:ET; [|left; subst; apply frame_refl].
  cbn [lua_str ret] in Hs'. unfold bind at 1 in Hs'.
  destruct (h !! "resource_id") as [R|] eqn:ER; [|left; subst; apply frame_refl].
  cbn [lua_str ret] in Hs'. unfold bind at 1 in Hs'.
  destruct (h !! "agent_id") as [A|] eqn:EA; [|left; subst; apply frame_refl].
  cbn [lua_str ret] in Hs'.
  assert (kl = lock_key T R) as -> by by eapply Hok.
  unfold lock_key at 1 in Hs'. rewrite gsub_lock_prefix in Hs'.
  unfold bind at 1 in Hs'.
  pose proof (framed_handoff_loop 10
    ("queue:" ++ Str.gsub (T ++ ":" ++ R) "lock:" "queue:") T R s) as Hloop.
  destruct (handoff_loop _ _ _ _ _) as [next s1|e s1] eqn:EL; cbn [final] in Hloop.
  2:{ right. eexists T, R, A, _, s1. split; [congruence|]. split; [exact Hloop|].
      left. cbn in Hs'. subst. apply frame_refl. }
  right. eexists T, R, A, _, s1. split; [congruence|]. split; [exact Hloop|].
  destruct next as [[N L']|].
  - right. exists N, L'. split; [by eapply handoff_loop_flag|].
    rewrite <- Hs'. apply framed_grant_next.
  - left. rewrite <- Hs'.
    match goal with |- frame _ _ (final (?c s1)) =>
      assert (framed no_write c) as Hc by framed_auto end.
    apply Hc.
Qed.

Section ReleaseInvariant.

Variable I : store → Prop.
Hypothesis I_no_write : ∀ s s', I s → frame no_write s s' → I s'.
Hypothesis I_loop :
  ∀ x s s', I s → frame (loop_writes ("queue:" ++ x)) s s' → I s'.
Hypothesis I_grant :
  ∀ T R N L' s s',
    I s → kv s !! cancel_key T R N = None →
    frame (grant_writes (lock_key T R) T R N L') s s' → I s'.

(** A property kept by the three kinds of frames is kept by release. *)
Lemma release_keeps d L a idem s :
  meta_ok s → I s → I (final (release_lock d L a idem s)).
Proof.
  intros Hok HI.
  destruct (release_frames d L a idem s _ Hok eq_refl)
    as [Hf|(T & R & A & x & s1 & _ & Hloop & [Hf|(N & L' & Hflag & Hf)])].
  - by eapply I_no_write.
  - eapply I_no_write; [|exact Hf]. by eapply I_loop.
  - eapply I_grant; [|exact Hflag|exact Hf]. by eapply I_loop.
Qed.

End ReleaseInvariant.

Lemma release_preserves d L a idem s :
  engine_inv s → engine_inv (final (release_lock d L a idem s)).
Proof.
  intros Hinv. apply release_keeps; [apply engine_inv_no_write|
    apply engine_inv_loop|apply engine_inv_grant|apply Hinv|done].
Qed.

(** C7 as stated fails: agent_a holds (customer, 123) and no cancel flag
    exists; after its own cancel the flag exists and names the holder. *)
Lemma cancel_flag_invariant_counterexample :
  cancel_inv Scenario.held ∧
  ¬ cancel_inv (exec 300 (Cancel "customer" "123" "agent_a") Scenario.held).
Proof.
  split.
  - intros T R A [e He] _.
    assert (map_Forall (λ k _, String.prefix "cancel:" k = false) (kv Scenario.held))
      as Hall.
    { apply map_Forall_to_list. vm_compute. repeat constructor. }
    apply Hall in He. unfold cancel_key in He.
    rewrite !app_String in He. cbn in He.
    match type of He with String.prefix _ ?x = _ => by destruct x end.
  - intros H. apply (H "customer" "123" "agent_a"); vm_compute; eauto.
Qed.

(** C7, amended (cancel-flag invariant).  From any state whose metadata is
    as the engine writes it and in which no cancel flag names the current
    holder, one atomic event keeps both properties, provided the event is
    not a cancel that writes a flag naming a current holder: acquire,
    release, extend, status, cleanup and the passing of time always qualify,
    and so does a cancel for (T, R, A) when A is in the queue of (T, R), or
    when the key it writes, cancel:T:R:A, is the flag key cancel:T':R':A' of
    no agent A' that holds lock:T':R'.  Names that contain colons let one key
    text belong to several triples, so the last condition asks more than
    that A does not hold lock:T:R. *)
Theorem cancel_flag_invariant d o s :
  meta_ok s → cancel_inv s →
  (∀ T R A, o = Cancel T R A → in_queue T R A s ∨ ¬ flag_names_holder T R A s) →
  cancel_inv (exec d o s) ∧ meta_ok (exec d o s).
Proof.
  intros Hok Hinv Hcancel.
  destruct o; cbn [exec].
  - by apply acquire_preserves.
  - by apply release_preserves.
  - eapply engine_inv_no_write; [by split|apply framed_extend_lock].
  - eapply engine_inv_no_write; [by split|apply framed_extend_script].
  - apply cancel_preserves; auto.
  - eapply engine_inv_no_write; [by split|apply framed_check_lock_status].
  - eapply engine_inv_no_write; [by split|apply framed_cleanup].
  - by apply tick_preserves.
Qed.

(** One key text, two triples: the flag that a cancel for agent [d] on the
    resource (a, b:c) writes is the flag of agent [c:d] on the resource
    (a, b).  Agent [d] holds nothing, and yet its cancel leaves a flag that
    names the holder of lock:a:b. *)
Lemma cancel_flag_key_aliasing :
  cancel_key "a" "b:c" "d" = cancel_key "a" "b" "c:d" ∧
  holder (lock_key "a" "b:c") Scenario.colon_holder = None ∧
  holder (lock_key "a" "b") Scenario.colon_holder = Some "c:d" ∧
  ¬ in_queue "a" "b:c" "d" Scenario.colon_holder ∧
  flag_names_holder "a" "b:c" "d" Scenario.colon_holder ∧
  ¬ cancel_inv (exec 300 (Cancel "a" "b:c" "d") Scenario.colon_holder).
Proof.
  split; [reflexivity|]. split; [vm_compute; reflexivity|].
  split; [vm_compute; reflexivity|]. split; [|split].
  - intros (q & sc & Hq & Hm). vm_compute in Hq. injection Hq as <-.
    vm_compute in Hm. discriminate Hm.
  - exists "a", "b", "c:d". split; [reflexivity|vm_compute; reflexivity].
  - intros H. apply (H "a" "b" "c:d"); vm_compute; eauto.
Qed.

Lemma engine_inv_empty : engine_inv empty_store.
Proof.
  split.
  - intros T R A [e He]. cbn [kv empty_store] in He. by rewrite lookup_empty in He.
  - intros k h ex lk T R Hk. cbn [kv empty_store] in Hk. by rewrite lookup_empty in Hk.
Qed.

Lemma engine_inv_held : engine_inv Scenario.held.
Proof.
  destruct engine_inv_empty as [Hinv Hok].
  apply (acquire_preserves 300 1 Scenario.t0 "customer" "123" "agent_a" 5 None false
           empty_store Hok Hinv).
Qed.

Lemma held_only_holder T R v :
  holder (lock_key T R) Scenario.held = Some v →
  lock_key T R = "lock:customer:123" ∧ v = "agent_a".
Proof.
  unfold holder.
  destruct (kv Scenario.held !! lock_key T R) as [e|] eqn:E; [|done].
  apply elem_of_map_to_list in E. vm_compute in E.
  apply elem_of_cons in E as [E|E]; [discriminate E|].
  apply elem_of_cons in E as [E|E]; [discriminate E|].
  apply elem_of_cons in E as [E|E]; [|by apply elem_of_nil in E].
  injection E as E ->. intros [= <-]. split; [|done].
  change (T ++ ":" ++ R = "customer:123") in E. unfold lock_key. by rewrite E.
Qed.

Lemma cancel_flag_invariant_witness :
  cancel_inv (exec 300 (Cancel "customer" "123" "agent_b") Scenario.held) ∧
  meta_ok (exec 300 (Cancel "customer" "123" "agent_b") Scenario.held).
Proof.
  apply (cancel_flag_invariant 300 (Cancel "customer" "123" "agent_b") Scenario.held).
  - apply engine_inv_held.
  - apply engine_inv_held.
  - intros T R A [= <- <- <-]. right. intros (T' & R' & A' & Hk & Hh).
    apply held_only_holder in Hh as [Hl ->].
    change "lock:customer:123" with (lock_key "customer" "123") in Hl.
    apply lock_key_inj in Hl.
    rewrite (cancel_key_resource T' R' "agent_a" "customer" "123" Hl) in Hk.
    vm_compute in Hk. discriminate Hk.
Defined.

(** ** The keyspace the engine writes: kinds of values by key prefix *)

Lemma prefix_nil s : String.prefix "" s = true.
Proof. by destruct s. Qed.

Ltac prefix_compute :=
  unfold lock_key, queue_key, agent_lock_key, cancel_key, meta_key, counter_key;
  rewrite ?app_String, ?app_Empty; cbn; rewrite ?prefix_nil; try done.

Lemma typed_lock T R v : typed (lock_key T R) (RStr v).
Proof. split; prefix_compute. Qed.

Lemma typed_agent T R A v : typed (agent_lock_key T R A) (RStr v).
Proof. split; prefix_compute. Qed.

Lemma typed_cancel T R A v : typed (cancel_key T R A) (RStr v).
Proof. split; prefix_compute. Qed.

Lemma typed_counter v : typed counter_key (RStr v).
Proof. split; prefix_compute. Qed.

Lemma typed_meta L h : typed (meta_key L) (RHash h).
Proof. unfold typed. prefix_compute. Qed.

Lemma typed_queue x z : typed ("queue:" ++ x) (RZset z).
Proof. unfold typed. prefix_compute. Qed.

Lemma well_typed_frame V s s' :
  well_typed s → frame V s s' → (∀ k x, V k x → typed k x) → well_typed s'.
Proof.
  intros Hwt [_ F] HV k x Hk. destruct (F _ _ Hk) as [Hold|Hnew]; auto.
Qed.

Lemma well_formed_frame V s s' :
  well_formed s → frame V s s' →
  (∀ k x, V k x → typed k x) → (∀ k h, V k (RHash h) → hash_ok h) →
  well_formed s'.
Proof.
  intros [Hok Hwt] Hf HV1 HV2.
  split; [by eapply meta_ok_frame|by eapply well_typed_frame].
Qed.

Lemma well_formed_no_write s s' : well_formed s → frame no_write s s' → well_formed s'.
Proof. intros H Hf. eapply well_formed_frame; eauto; done. Qed.

Lemma well_formed_loop x s s' :
  well_formed s → frame (loop_writes ("queue:" ++ x)) s s' → well_formed s'.
Proof.
  intros H Hf. eapply well_formed_frame; [done|exact Hf|..].
  - intros k v [[-> [z ->]]|[-> [w ->]]]; [apply typed_queue|apply typed_counter].
  - intros k h [[_ [? [=]]]|[_ [? [=]]]].
Qed.

Lemma well_formed_grant T R N L' s s' :
  well_formed s → kv s !! cancel_key T R N = None →
  frame (grant_writes (lock_key T R) T R N L') s s' → well_formed s'.
Proof.
  intros H _ Hf. eapply well_formed_frame; [done|exact Hf|..].
  - intros k v [[-> ->]|[[-> (at_ & h0 & ->)]|[-> ->]]];
      [apply typed_lock|apply typed_meta|apply typed_agent].
  - intros k h [[_ [=]]|[[_ (at_ & h0 & [= ->])]|[_ [=]]]].
    apply meta_fields_hash_ok.
Qed.

Lemma well_formed_empty : well_formed empty_store.
Proof.
  split.
  - intros k h ex lk T R Hk. cbn [kv empty_store] in Hk. by rewrite lookup_empty in Hk.
  - intros k x Hk. unfold val_at in Hk. cbn [kv empty_store] in Hk.
    by rewrite lookup_empty in Hk.
Qed.

(** Every event keeps the keyspace as the engine writes it. *)
Lemma well_formed_exec d o s : well_formed s → well_formed (exec d o s).
Proof.
  intros Hwf. destruct o; cbn [exec].
  - rewrite final_acquire_lock.
    eapply well_formed_frame; [done|apply framed_acquire_script|..].
    + intros k x [[-> ->]|[[-> [h0 ->]]|[[-> ->]|[-> [z ->]]]]];
        [apply typed_lock|apply typed_meta|apply typed_agent|apply typed_queue].
    + intros k h [[_ [=]]|[[_ [h0 [= ->]]]|[[_ [=]]|[_ [? [=]]]]]].
      apply meta_fields_hash_ok.
  - apply release_keeps; [apply well_formed_no_write|apply well_formed_loop|
      apply well_formed_grant|apply Hwf|done].
  - eapply well_formed_no_write; [done|apply framed_extend_lock].
  - eapply well_formed_no_write; [done|apply framed_extend_script].
  - rewrite final_cancel_lock_request.
    eapply well_formed_frame; [done|apply framed_cancel_script|..].
    + intros k x [[-> [z ->]]|[-> ->]]; [apply typed_queue|apply typed_cancel].
    + intros k h [[_ [? [=]]]|[_ [=]]].
  - eapply well_formed_no_write; [done|apply framed_check_lock_status].
  - eapply well_formed_no_write; [done|apply framed_cleanup].
  - destruct Hwf as [Hok Hwt]. split.
    + intros k h ex lk T R Hk.
      assert (val_at k (tick dt s) = Some (RHash h)) as Hv
        by (unfold val_at; by rewrite Hk).
      apply tick_val_at in Hv. unfold val_at in Hv.
      destruct (kv s !! k) as [[v ex']|] eqn:E; [|done].
      injection Hv as ->. by eapply Hok.
    + intros k x Hk%tick_val_at. by apply Hwt.
Qed.

Lemma well_formed_run d ops s : well_formed s → well_formed (run d ops s).
Proof.
  revert s. induction ops as [|o ops IH]; intros s H; cbn [run foldl]; [done|].
  apply IH. by apply well_formed_exec.
Qed.

(** In such a keyspace the keys the scripts read have the kind they expect. *)
Lemma well_typed_meta_key s L :
  well_typed s → kv s !! meta_key L = None ∨ ∃ h ex, kv s !! meta_key L = Some (Entry (RHash h) ex).
Proof.
  intros Hwt. destruct (kv s !! meta_key L) as [[x ex]|] eqn:E; [right|by left].
  assert (typed (meta_key L) x) as Ht by (apply Hwt; unfold val_at; by rewrite E).
  destruct x as [v|h|z]; [|eauto|].
  - destruct Ht as [Ht _]. revert Ht. prefix_compute.
  - revert Ht. unfold typed. prefix_compute.
Qed.

Lemma well_typed_queue_key s T R :
  well_typed s → ∃ q, queue_of (queue_key T R) s = Some q.
Proof.
  intros Hwt. unfold queue_of.
  destruct (kv s !! queue_key T R) as [[x ex]|] eqn:E; [|eauto].
  assert (typed (queue_key T R) x) as Ht by (apply Hwt; unfold val_at; by rewrite E).
  destruct x as [v|h|z]; [| |eauto].
  - destruct Ht as [_ Ht]. revert Ht. prefix_compute.
  - revert Ht. unfold typed. prefix_compute.
Qed.

(** ** Mutual exclusion, exactly *)

Lemma present_false k s : present k s = false ↔ kv s !! k = None.
Proof. unfold present. by destruct (kv s !! k). Qed.

Lemma frame_absent_present V s s' k :
  frame V s s' → present k s = false → present k s' = true → ∃ x, V k x.
Proof.
  intros [_ F] Hb Ha. apply present_false in Hb. apply present_true in Ha.
  apply is_Some_val_at in Ha as [x Hx]. exists x.
  destruct (F _ _ Hx) as [Hold|]; [|done].
  apply val_at_None in Hb. congruence.
Qed.

Lemma EXPIRE_total k t s : ∃ n s', EXPIRE k t s = Ok n s'.
Proof.
  unfold EXPIRE. destruct (kv s !! k); [destruct (t <=? 0)|]; eauto.
Qed.

(** In an engine-written keyspace, an acquire that finds no cancel flag and
    no lock key, with a positive ttl, answers [acquired]. *)
Lemma acquire_free d rnd host_now T R A p ttl re s :
  well_typed s →
  kv s !! cancel_key T R A = None → kv s !! lock_key T R = None →
  0 < effective_ttl d ttl →
  ∃ s', acquire_lock d rnd host_now T R A p ttl re s
        = Ok (Acquired (Host.uuid_str (Host.uuid4 rnd)) (effective_ttl d ttl)) s'.
Proof.
  intros Hwt Hc Hl Ht.
  unfold acquire_lock, acquire_script. cbv zeta.
  unfold bind at 1 2. unfold GET at 1. rewrite Hc.
  unfold bind at 1. unfold GET at 1. rewrite Hl.
  destruct (decide (None = Some A)); [done|].
  unfold acquire_or_queue. unfold bind at 1. unfold SET at 1.
  destruct (Z.leb_spec (effective_ttl d ttl) 0); [lia|]. rewrite Hl.
  unfold bind at 1. unfold HSET.
  cbn [kv with_kv]. rewrite lookup_insert_ne by key_neq.
  destruct (well_typed_meta_key s (Host.uuid_str (Host.uuid4 rnd)) Hwt)
    as [Hm|(h & ex & Hm)]; rewrite Hm.
  all: unfold bind at 1;
    match goal with |- context [EXPIRE ?k ?t ?s0] =>
      destruct (EXPIRE_total k t s0) as (cnt & s3 & ->) end;
    unfold bind at 1; rewrite SET_Always_run by done;
    cbn; eauto.
Qed.

(** An acquire creates the lock key only together with an [acquired]
    answer. *)
Lemma acquire_creates d rnd host_now T R A p ttl re s :
  well_typed s →
  present (lock_key T R) s = false →
  present (lock_key T R) (final (acquire_lock d rnd host_now T R A p ttl re s)) = true →
  ∃ L e s', acquire_lock d rnd host_now T R A p ttl re s = Ok (Acquired L e) s'.
Proof.
  intros Hwt Hb Ha. pose proof Hb as Hl. apply present_false in Hl.
  destruct (kv s !! cancel_key T R A) as [ec|] eqn:Ec.
  - exfalso. revert Ha. rewrite final_acquire_lock.
    unfold acquire_script, bind at 1, GET at 1. rewrite Ec.
    destruct ec as [[v|h|z] ?]; cbn [final]; try congruence.
    cbn. unfold present. cbn. rewrite lookup_delete_ne by key_neq.
    by rewrite Hl.
  - destruct (Z.leb_spec (effective_ttl d ttl) 0) as [Ht|Ht].
    + exfalso. revert Ha. rewrite final_acquire_lock.
      unfold acquire_script, bind at 1, GET at 1. rewrite Ec.
      unfold bind at 1, GET at 1. rewrite Hl.
      destruct (decide (None = Some A)); [done|].
      unfold acquire_or_queue, bind at 1, SET at 1.
      destruct (Z.leb_spec (effective_ttl d ttl) 0); [|lia].
      cbn [final]. congruence.
    + destruct (acquire_free d rnd host_now T R A p ttl re s Hwt Ec Hl Ht) as [s' Hs'].
      eauto.
Qed.

(** No event makes an absent lock key appear, except an acquire that
    answers [acquired] for it. *)
Lemma lock_key_appears d T R o s :
  well_formed s →
  present (lock_key T R) s = false →
  present (lock_key T R) (exec d o s) = true →
  grants d (lock_key T R) o s = true.
Proof.
  intros [Hok Hwt] Hb Ha. destruct o; cbn [exec grants] in *.
  - assert (lock_key T0 R0 = lock_key T R) as Hk.
    { rewrite final_acquire_lock in Ha.
      destruct (frame_absent_present _ _ _ _ (framed_acquire_script _ _ _ _ _ _ _ _ _ _ _ _ _ s) Hb Ha)
        as [x [[-> _]|[[H _]|[[H _]|[H _]]]]]; [done|..];
        exfalso; revert H; key_neq. }
    rewrite <- Hk in Hb, Ha.
    destruct (acquire_creates _ _ _ _ _ _ _ _ _ _ Hwt Hb Ha) as (L & e & s' & ->).
    by apply bool_decide_eq_true.
  - exfalso.
    destruct (release_frames d lock_id agent_id idempotent s _ Hok eq_refl)
      as [Hf|(T0 & R0 & A0 & x & s1 & Hh & Hloop & Hrest)].
    { by destruct (frame_absent_present _ _ _ _ Hf Hb Ha). }
    assert (lock_key T0 R0 ≠ lock_key T R) as Hne.
    { intros Heq. rewrite Heq in Hh. apply holder_present in Hh. congruence. }
    assert (present (lock_key T R) s1 = false) as Hb1.
    { destruct (present (lock_key T R) s1) eqn:E; [|done].
      destruct (frame_absent_present _ _ _ _ Hloop Hb E)
        as [v [[H _]|[H _]]]; exfalso; revert H; key_neq. }
    destruct Hrest as [Hf|(N & L' & _ & Hf)].
    + by destruct (frame_absent_present _ _ _ _ Hf Hb1 Ha).
    + destruct (frame_absent_present _ _ _ _ Hf Hb1 Ha)
        as [v [[H _]|[[H _]|[H _]]]]; [done|..]; revert H; key_neq.
  - exfalso. by destruct (frame_absent_present _ _ _ _ (framed_extend_lock _ _ _ s) Hb Ha).
  - exfalso.
    by destruct (frame_absent_present _ _ _ _ (framed_extend_script _ _ _ _ _ s) Hb Ha).
  - exfalso. rewrite final_cancel_lock_request in Ha.
    destruct (frame_absent_present _ _ _ _ (framed_cancel_script _ _ _ _ s) Hb Ha)
      as [v [[H _]|[H _]]]; revert H; key_neq.
  - exfalso.
    by destruct (frame_absent_present _ _ _ _ (framed_check_lock_status _ s) Hb Ha).
  - exfalso. by destruct (frame_absent_present _ _ _ _ (framed_cleanup s) Hb Ha).
  - exfalso. apply present_true, is_Some_val_at in Ha as [x Hx].
    apply tick_val_at in Hx. apply present_false, val_at_None in Hb. congruence.
Qed.

(** One event keeps the count of live grants equal to the presence of the
    lock key. *)
Lemma live_step_exact d T R o s n :
  well_formed s →
  n = (if present (lock_key T R) s then 1 else 0) →
  n + (if grants d (lock_key T R) o s then 1 else 0)
    - (if ends d (lock_key T R) o s then 1 else 0)
  = (if present (lock_key T R) (exec d o s) then 1 else 0).
Proof.
  intros Hwf ->. unfold ends.
  destruct (grants d (lock_key T R) o s) eqn:Hg.
  - apply grants_presence in Hg as [Hafter Hbefore]. rewrite Hafter.
    destruct o; rewrite Hbefore in *; cbn; try lia.
  - destruct (present (lock_key T R) s) eqn:Hb,
             (present (lock_key T R) (exec d o s)) eqn:Ha; cbn; try lia.
    + destruct o; cbn; lia.
    + pose proof (lock_key_appears d T R o s Hwf Hb Ha). congruence.
Qed.

Lemma live_exact d T R ops s n :
  well_formed s →
  n = (if present (lock_key T R) s then 1 else 0) →
  live d (lock_key T R) ops s n
  = (if present (lock_key T R) (run d ops s) then 1 else 0).
Proof.
  revert s n. induction ops as [|o ops IH]; intros s n Hwf Hn;
    cbn [live run foldl]; [done|].
  apply IH; [by apply well_formed_exec|by apply live_step_exact].
Qed.

(** C1 (mutual exclusion).  For every lock key and every sequence of atomic
    events from the empty store (engine calls of any clients in any order,
    and the passing of time), the grants on the key ([acquired] answers and
    handoffs) minus the grants ended (key handed over, released, expired or
    cleaned up) are 1 while the lock key exists and 0 while it does not; so
    their number never exceeds one, and a grant is given only when no grant
    is live. *)
Theorem mutual_exclusion d T R ops :
  live d (lock_key T R) ops empty_store 0
    = (if present (lock_key T R) (run d ops empty_store) then 1 else 0) ∧
  0 ≤ live d (lock_key T R) ops empty_store 0 ≤ 1.
Proof.
  assert (live d (lock_key T R) ops empty_store 0
          = (if present (lock_key T R) (run d ops empty_store) then 1 else 0)) as H.
  { apply live_exact; [apply well_formed_empty|].
    unfold present, empty_store. cbn [kv]. by rewrite lookup_empty. }
  split; [exact H|]. rewrite H. destruct (present _ _); lia.
Qed.

(** The count at work: one grant by acquire, kept at one through a handoff,
    back to zero after the successor's release. *)
Lemma mutual_exclusion_witness :
  let ops := [Acquire 1 Scenario.t0 "customer" "123" "agent_a" 5 None false;
              Acquire 2 Scenario.t0 "customer" "123" "agent_b" 3 None false;
              Release (Scenario.lid 1) None true] in
  live 300 (lock_key "customer" "123") ops empty_store 0 = 1 ∧
  0 ≤ live 300 (lock_key "customer" "123") ops empty_store 0 ≤ 1.
Proof.
  cbv zeta.
  apply (mutual_exclusion 300 "customer" "123"
    [Acquire 1 Scenario.t0 "customer" "123" "agent_a" 5 None false;
     Acquire 2 Scenario.t0 "customer" "123" "agent_b" 3 None false;
     Release (Scenario.lid 1) None true]).
Defined.

Lemma live_example :
  live 300 (lock_key "customer" "123")
    [Acquire 1 Scenario.t0 "customer" "123" "agent_a" 5 None false] empty_store 0 = 1 ∧
  live 300 (lock_key "customer" "123")
    [Acquire 1 Scenario.t0 "customer" "123" "agent_a" 5 None false;
     Acquire 2 Scenario.t0 "customer" "123" "agent_b" 3 None false;
     Release (Scenario.lid 1) None true] empty_store 0 = 1 ∧
  live 300 (lock_key "customer" "123")
    [Acquire 1 Scenario.t0 "customer" "123" "agent_a" 5 None false;
     Acquire 2 Scenario.t0 "customer" "123" "agent_b" 3 None false;
     Release (Scenario.lid 1) None true;
     Release (Scenario.lid 2) None true] empty_store 0 = 0.
Proof. repeat split; vm_compute; reflexivity. Qed.

(** ** The score of a waiter *)

(** An agent that asks for a lock held by another agent, and is not in the
    queue yet, enters it with the double nearest to [- priority] as its
    score. *)
Lemma acquire_queues_with_score d rnd host_now T R A B p ttl re s q :
  kv s !! cancel_key T R A = None →
  holder (lock_key T R) s = Some B → B ≠ A →
  queue_of (queue_key T R) s = Some q → q !! A = None →
  0 < effective_ttl d ttl →
  ∃ pos s',
    acquire_lock d rnd host_now T R A p ttl re s
      = Ok (Queued (Host.uuid_str (Host.uuid4 rnd)) pos) s' ∧
    queue_of (queue_key T R) s' = Some (<[A := double_of_Z (- p)]> q) ∧
    holder (lock_key T R) s' = Some B.
Proof.
  intros Hc Hl HBA Hq HA Ht.
  unfold holder in Hl.
  destruct (kv s !! lock_key T R) as [[[v| |] el]|] eqn:El; try done.
  injection Hl as ->.
  unfold acquire_lock, acquire_script. cbv zeta.
  unfold bind at 1 2. unfold GET at 1. rewrite Hc.
  unfold bind at 1. unfold GET at 1. rewrite El.
  destruct (decide (Some B = Some A)) as [[=]|_]; [done|].
  unfold acquire_or_queue. unfold bind at 1. unfold SET at 1.
  destruct (Z.leb_spec (effective_ttl d ttl) 0); [lia|]. rewrite El.
  unfold ZSCORE, ZADD, ZRANK. generalize (double_of_Z (- p)). intros sc.
  assert (∃ ex, zset_at (queue_key T R) s = Ok (q, ex) s) as [ex Hz].
  { unfold zset_at, queue_of in *.
    destruct (kv s !! queue_key T R) as [[[| |z] ex]|];
      simplify_eq; eauto. }
  unfold bind at 1 2. rewrite Hz. cbn [ret fst snd]. rewrite HA.
  unfold bind at 1 2. rewrite Hz. cbn [fst snd].
  unfold bind at 1. rewrite SET_Always_run by done.
  unfold bind at 1 2. unfold zset_at. kv_simpl.
  unfold zrank. rewrite lookup_insert_eq. cbn.
  eexists _, _. split; [reflexivity|].
  unfold queue_of, holder. kv_simpl. by rewrite El.
Qed.

(** ** Priority order of the handoff *)

Lemma double_of_Z_exact z :
  - 9007199254740992 < z < 9007199254740992 → double_of_Z z = z.
Proof.
  intros Hz. unfold double_of_Z. change (2 ^ 53) with 9007199254740992.
  destruct (Z.ltb_spec (Z.abs z) 9007199254740992); [done|lia].
Qed.

(** C2 as stated fails.  agent_a holds (customer, 123), agent_b waits with
    priority 2^53 and agent_c with the higher priority 2^53 + 1; nobody has
    a cancel flag.  Both scores are stored as the same double, so the order
    of the queue is decided by the agent ids, and the release hands the lock
    to agent_b. *)
Lemma priority_handoff_counterexample :
  queue_of (queue_key "customer" "123") Scenario.big_priorities
  = Some {["agent_b" := - 9007199254740992; "agent_c" := - 9007199254740992]} ∧
  keys_with_prefix "cancel:" Scenario.big_priorities = [] ∧
  ∃ s', release_lock 300 (Scenario.lid 1) None true Scenario.big_priorities
        = Ok (Released (Some ("agent_b", Scenario.lid 2))) s'.
Proof.
  split; [vm_compute; reflexivity|].
  split; [vm_compute; reflexivity|].
  eexists. vm_compute. reflexivity.
Qed.

(** What the amended claim leaves out.  Release derives its queue key by
    replacing every [lock:] in the lock key, so for the resource (block, 1)
    it pops the queue of (bqueue, 1): agent_c, who waits for (bqueue, 1), is
    handed the lock of (block, 1) under a fallback id, and agent_b, the only
    waiter for (block, 1), stays in its queue. *)
Lemma release_pops_other_queue :
  Str.gsub (lock_key "block" "1") "lock:" "queue:" = queue_key "bqueue" "1" ∧
  queue_of (queue_key "block" "1") Scenario.block_waiters = Some {["agent_b" := -5]} ∧
  ∃ s', release_lock 300 (Scenario.lid 1) None true Scenario.block_waiters
        = Ok (Released (Some ("agent_c", "fallback_1"))) s' ∧
        holder (lock_key "block" "1") s' = Some "agent_c" ∧
        queue_of (queue_key "block" "1") s' = Some {["agent_b" := -5]}.
Proof.
  split; [vm_compute; reflexivity|].
  split; [vm_compute; reflexivity|].
  eexists. split; [vm_compute; reflexivity|].
  split; vm_compute; reflexivity.
Qed.

(** C2, amended (priority handoff order).  For a lock on the resource
    (T, R) whose metadata names the lock key lock:T:R, where the text
    [lock:] does not occur in [T:R]: whenever a release hands the lock over
    and no member [m] of queue:T:R has a flag key cancel:T:R:m, the successor
    is the member of queue:T:R whose stored score is minimal, and among the
    members with that score its agent id is the least in byte order.  The
    score stored for an agent that enters the queue is the double nearest to
    the negated priority of its request, which is the negated priority
    itself when that is below 2^53 in absolute value. *)
Theorem priority_handoff_order d L a idem s N L' s' T R q :
  release_lock d L a idem s = Ok (Released (Some (N, L'))) s' →
  meta_field L "lock_key" s = Some (lock_key T R) →
  meta_field L "resource_type" s = Some T →
  meta_field L "resource_id" s = Some R →
  Str.occurs "lock:" (T ++ ":" ++ R) = false →
  queue_of (queue_key T R) s = Some q →
  (∀ m, is_Some (q !! m) → kv s !! cancel_key T R m = None) →
  (∃ sc, q !! N = Some sc ∧
     ∀ m sc', q !! m = Some sc' → sc < sc' ∨ (sc = sc' ∧ String.leb N m = true)) ∧
  (∀ d0 rnd host_now A B p ttl re s0 q0,
     kv s0 !! cancel_key T R A = None →
     holder (lock_key T R) s0 = Some B → B ≠ A →
     queue_of (queue_key T R) s0 = Some q0 → q0 !! A = None →
     0 < effective_ttl d0 ttl →
     ∃ pos s1,
       acquire_lock d0 rnd host_now T R A p ttl re s0
       = Ok (Queued (Host.uuid_str (Host.uuid4 rnd)) pos) s1 ∧
       queue_of (queue_key T R) s1 = Some (<[A := double_of_Z (- p)]> q0)) ∧
  (∀ p, - 9007199254740992 < p < 9007199254740992 → double_of_Z (- p) = - p).
Proof.
  intros Hrel Hk HT HR Hocc Hq Hflags. split; [|split].
  - eapply handoff_pops_minimum; [exact Hrel|exact Hk|exact HT|exact HR| |exact Hflags].
    by rewrite release_queue_key.
  - intros d0 rnd host_now A B p ttl re s0 q0 Hc Hl HBA Hq0 HA Ht.
    destruct (acquire_queues_with_score d0 rnd host_now T R A B p ttl re s0 q0
                Hc Hl HBA Hq0 HA Ht) as (pos & s1 & H1 & H2 & _).
    eauto.
  - intros p Hp. apply double_of_Z_exact. lia.
Qed.

Lemma priority_handoff_order_witness :
  ∃ sc, ({["agent_b" := -3; "agent_c" := -10]} : gmap string Z) !! "agent_c" = Some sc ∧
    ∀ m sc', ({["agent_b" := -3; "agent_c" := -10]} : gmap string Z) !! m = Some sc' →
      sc < sc' ∨ (sc = sc' ∧ String.leb "agent_c" m = true).
Proof.
  eapply (priority_handoff_order 300 (Scenario.lid 1) None true Scenario.queued
            "agent_c" (Scenario.lid 3) _ "customer" "123").
  - vm_compute. reflexivity.
  - vm_compute. reflexivity.
  - vm_compute. reflexivity.
  - vm_compute. reflexivity.
  - vm_compute. reflexivity.
  - vm_compute. reflexivity.
  - intros m [sc Hm]. apply elem_of_map_to_list in Hm.
    vm_compute in Hm.
    apply elem_of_cons in Hm as [[= -> ->]|Hm]; [vm_compute; reflexivity|].
    apply elem_of_cons in Hm as [[= -> ->]|Hm]; [vm_compute; reflexivity|].
    by apply elem_of_nil in Hm.
Defined.
